(** * The encoding notebooks of dalle-mini: caption builder, batching,
      token serialisation and the rotating split writer

    Source: [dev/encoding/vqgan-jax-encoding-streaming.ipynb] and
    [dev/encoding/vqgan-jax-encoding-webdataset.ipynb].  Both notebooks hold
    the same [create_caption] and the same [encode_captioned_dataset] loop;
    they differ in how a batch reaches the loop (a dictionary of columns from
    a torch [DataLoader], or a tuple of columns from [webdataset.batched]). *)

From Stdlib Require Import ZArith NArith List String Ascii Lia Bool.
From stdpp Require Import base gmap strings list.

Local Open Scope Z_scope.

(** ** Python text

    A Python [str] is a sequence of Unicode code points.  Captions and keys
    come from the dataset and may hold any code point, so they are lists of
    [N]; file names and the rendered token lists are ASCII by construction and
    are Rocq strings. *)

Abbreviation pystr := (list N).

Definition of_string (s : string) : pystr :=
  map N_of_ascii (list_ascii_of_string s).

(** [str.isspace] for one code point: the characters [str.strip()] removes
    when called without argument. *)
Definition isspace (c : N) : bool :=
  (((9 <=? c) && (c <=? 13)) || ((28 <=? c) && (c <=? 32))
   || (c =? 133) || (c =? 160) || (c =? 5760)
   || ((8192 <=? c) && (c <=? 8202))
   || (c =? 8232) || (c =? 8233) || (c =? 8239) || (c =? 8287)
   || (c =? 12288))%N.

Fixpoint lstrip (s : pystr) : pystr :=
  match s with
  | [] => []
  | c :: s' => if isspace c then lstrip s' else s
  end.

Definition rstrip (s : pystr) : pystr := rev (lstrip (rev s)).

(** [s.strip()] *)
Definition strip (s : pystr) : pystr := rstrip (lstrip s).

(** [c in chars] for a one-character string [c]. *)
Definition char_in (c : N) (chars : pystr) : bool := existsb (N.eqb c) chars.

(** [title[-1]]; only evaluated behind the guard [len(title) > 0]. *)
Definition last_char (s : pystr) : N := default 0%N (last s).

(** ** Caption builder

<<
def create_caption(title, description):
    title = title.strip()
    description = description.strip()
    if len(title) > 0 and title[-1] not in '.!?': title += '.'
    return f'{title} {description}'
>> *)
Definition create_caption (title description : pystr) : pystr :=
  let title := strip title in
  let description := strip description in
  let title :=
    if (0 <? length title)%nat && negb (char_in (last_char title) (of_string ".!?"))
    then title ++ of_string "."
    else title in
  title ++ of_string " " ++ description.

(** The trimmed form of a text, stated without reference to [strip]: what is
    left after removing a prefix and a suffix of blanks, when what is left
    neither starts nor ends with a blank. *)
Definition trimmed_of (s r : pystr) : Prop :=
  ∃ a b, s = a ++ r ++ b
    ∧ Forall (λ c, isspace c = true) a
    ∧ Forall (λ c, isspace c = true) b
    ∧ (∀ c, head r = Some c → isspace c = false)
    ∧ (∀ c, last r = Some c → isspace c = false).

Definition ends_sentence (c : N) : Prop :=
  c = 46%N ∨ c = 33%N ∨ c = 63%N.

(** ** Integers as text *)

(** The character of one digit, ["0123456789abcdef"[d]]. *)
Definition digit_char (d : N) : ascii :=
  ascii_of_N (if (d <? 10)%N then 48 + d else 87 + d).

(** The digits of [n] in [base], most significant first, written in front of
    [acc].  [fuel] bounds the number of digits. *)
Fixpoint digits_go (base : N) (fuel : nat) (n : N) (acc : string) : string :=
  match fuel with
  | O => acc
  | S fuel' =>
      let acc' := String (digit_char (n mod base)) acc in
      if (n <? base)%N then acc' else digits_go base fuel' (n / base) acc'
  end.

(** [fuel] steps are enough for the digits of [n]. *)
Definition enough (fuel : nat) (n : N) : Prop := (n < 2 ^ N.of_nat fuel)%N.

Definition digits (base n : N) : string :=
  digits_go base (S (N.to_nat (N.log2 n))) n "".

(** [str(x)] for a Python (or numpy) integer. *)
Definition py_str (x : Z) : string :=
  if x <? 0 then "-" +:+ digits 10 (Z.abs_N x) else digits 10 (Z.abs_N x).

Fixpoint zeros (k : nat) : string :=
  match k with
  | O => ""
  | S k' => String "0" (zeros k')
  end.

(** Left padding with ["0"] up to [width]; nothing is cut when the text is
    longer. *)
Definition zfill (width : nat) (s : string) : string :=
  zeros (width - String.length s) +:+ s.

(** [f'{x:05x}']: lowercase hexadecimal, zero-padded to a minimum width of
    five characters, the sign (if any) counted in the width and written
    before the padding. *)
Definition format_05x (x : Z) : string :=
  if x <? 0 then "-" +:+ zfill 4 (digits 16 (Z.abs_N x))
  else zfill 5 (digits 16 (Z.abs_N x)).

(** [f'split_{split_num:05x}.jsonl'], the name of a split file inside
    [output_dir]. *)
Definition split_name (split_num : Z) : string :=
  "split_" +:+ format_05x split_num +:+ ".jsonl".

(** ** Rendering a token row

    [np.array2string(item, separator=',', max_line_width=50000,
                     formatter={'int': lambda x: str(x)})]
    for a one-dimensional integer array.  The remaining print options keep
    their defaults: [threshold = 1000], [edgeitems = 3], no prefix or
    suffix. *)

Definition threshold : nat := 1000.
Definition edgeitems : nat := 3.
Definition max_line_width : Z := 50000.
Definition separator : string := ",".
Definition newline : string := String "010" "".

Definition ascii_isspace (a : ascii) : bool := isspace (N_of_ascii a).

(** [line.rstrip()] *)
Fixpoint string_rstrip (s : string) : string :=
  match s with
  | "" => ""
  | String c s' =>
      match string_rstrip s' with
      | "" => if ascii_isspace c then "" else String c ""
      | r => String c r
      end
  end.

(** numpy's [_extendLine]: start a new output line when [word] does not fit
    on the current one ([s] holds the finished lines). *)
Definition extend_line (line_width : Z) (next_line_prefix : string)
    (sl : string * string) (word : string) : string * string :=
  let '(s, line) := sl in
  let needs_wrap :=
    (line_width <? Z.of_nat (String.length line) + Z.of_nat (String.length word))
    && negb (String.length line <=? String.length next_line_prefix)%nat in
  if needs_wrap
  then (s +:+ string_rstrip line +:+ newline, next_line_prefix +:+ word)
  else (s, line +:+ word).

(** One turn of the element loops of [_formatArray]: place the word, then
    the separator. *)
Definition put_word (line_width : Z) (next_line_prefix : string)
    (sl : string * string) (word : string) : string * string :=
  let '(s, line) := extend_line line_width next_line_prefix sl word in
  (s, line +:+ separator).

Fixpoint string_drop (k : nat) (s : string) : string :=
  match k, s with
  | O, _ => s
  | S k', String _ s' => string_drop k' s'
  | S _, "" => ""
  end.

Definition array2string (a : list Z) : string :=
  if (length a =? 0)%nat then "[]" else
  let summary_insert := if (threshold <? length a)%nat then "..." else "" in
  let show_summary :=
    negb (String.eqb summary_insert "") && (2 * edgeitems <? length a)%nat in
  let leading := if show_summary then take edgeitems a else [] in
  let trailing := if show_summary then drop (length a - edgeitems) a else a in
  let hanging_indent := " " in
  let elem_width :=
    max_line_width
    - Z.of_nat (Nat.max (String.length (string_rstrip separator))
                        (String.length "]")) in
  let sl := ("", hanging_indent) in
  let sl := fold_left (put_word elem_width hanging_indent) (map py_str leading) sl in
  let sl :=
    if show_summary
    then put_word elem_width hanging_indent sl summary_insert
    else sl in
  let sl :=
    fold_left (put_word elem_width hanging_indent)
              (map py_str (removelast trailing)) sl in
  let '(s, line) :=
    extend_line elem_width hanging_indent sl (py_str (List.last trailing 0)) in
  "[" +:+ string_drop (String.length hanging_indent) (s +:+ line) +:+ "]".

(** The text the output format asks for: the integers in decimal, a comma
    between neighbours, square brackets around the whole. *)
Fixpoint join_commas (words : list string) : string :=
  match words with
  | [] => ""
  | [w] => w
  | w :: ws => w +:+ "," +:+ join_commas ws
  end.

Definition bracketed (a : list Z) : string :=
  "[" +:+ join_commas (map py_str a) +:+ "]".

(** The token rows of the model named in the notebooks
    ([flax-community/vqgan_f16_16384] on 256 x 256 images): the image side
    divided by the patch factor, squared, with indices into a codebook of
    16384 entries held in 32-bit integers. *)
Definition max_size : nat := 256.
Definition patch_factor : nat := 16.
Definition max_token_length : nat :=
  (max_size / patch_factor) * (max_size / patch_factor).

Definition is_int32 (x : Z) : Prop := -2147483648 <= x < 2147483648.

(** The value of a decimal digit character. *)
Definition dec_digit (c : ascii) : option N :=
  let n := N_of_ascii c in
  if ((48 <=? n) && (n <=? 57))%N then Some (n - 48)%N else None.

Definition signed (neg : bool) (v : N) : Z :=
  if neg then - Z.of_N v else Z.of_N v.

(** Modelled from the spec: the decoder of the [encoding] field, which is not
    part of the notebooks.  It reads a bracketed list of decimal integers
    separated by commas and nothing else: an opening bracket, then integers
    (an optional minus sign and at least one digit) with one comma between
    neighbours, then the closing bracket as the last character.
    [parse_items] reads what follows the opening bracket: [acc] holds the
    integers read so far, [neg] and [cur] the sign and the digits of the one
    being read. *)
Fixpoint parse_items (s : string) (acc : list Z) (neg : bool) (cur : option N)
    : option (list Z) :=
  match s with
  | "" => None
  | String c s' =>
      match dec_digit c with
      | Some d => parse_items s' acc neg (Some (10 * default 0 cur + d)%N)
      | None =>
          if Ascii.eqb c "-" then
            match cur with
            | None => if neg then None else parse_items s' acc true None
            | Some _ => None
            end
          else if Ascii.eqb c "," then
            match cur with
            | Some v => parse_items s' (acc ++ [signed neg v]) false None
            | None => None
            end
          else if Ascii.eqb c "]" then
            match cur, s' with
            | Some v, "" => Some (acc ++ [signed neg v])
            | None, "" =>
                if neg then None
                else match acc with [] => Some [] | _ => None end
            | _, _ => None
            end
          else None
      end
  end.

(** Modelled from the spec: decoding the [encoding] string back into an
    integer sequence. *)
Definition parse_encoding (s : string) : option (list Z) :=
  match s with
  | String c s' => if Ascii.eqb c "[" then parse_items s' [] false None else None
  | "" => None
  end.

(** The value of the hexadecimal digits a text starts with. *)
Definition hex_digit (c : ascii) : option N :=
  let n := N_of_ascii c in
  if ((48 <=? n) && (n <=? 57))%N then Some (n - 48)%N
  else if ((97 <=? n) && (n <=? 102))%N then Some (n - 87)%N
  else None.

Fixpoint hex_value_go (acc : N) (s : string) : N :=
  match s with
  | "" => acc
  | String c s' =>
      match hex_digit c with
      | Some d => hex_value_go (16 * acc + d) s'
      | None => acc
      end
  end.

(** The split index a file name was made from (for names of non-negative
    indices). *)
Definition name_index (name : string) : N :=
  hex_value_go 0 (string_drop 6 name).

Fixpoint all_chars (p : ascii → bool) (s : string) : bool :=
  match s with
  | "" => true
  | String c s' => p c && all_chars p s'
  end.

Definition is_lower_hex (c : ascii) : bool :=
  match hex_digit c with Some _ => true | None => false end.


(** ** Items and batches *)

(** A row of the source dataset and the item [prepare_item] makes of it
    (the webdataset notebook builds the same triple with [map_dict] and
    [to_tuple]). *)
Record DatasetItem (RawImage : Type) := {
  item_key : pystr;
  title_clean : pystr;
  description_clean : pystr;
  img : RawImage
}.
Arguments item_key {RawImage}.
Arguments title_clean {RawImage}.
Arguments description_clean {RawImage}.
Arguments img {RawImage}.

Record PreparedItem (Image : Type) := {
  key : pystr;
  caption : pystr;
  image : Image
}.
Arguments key {Image}.
Arguments caption {Image}.
Arguments image {Image}.

Definition prepare_item {RawImage Image : Type}
    (preprocess_image : RawImage → Image) (item : DatasetItem RawImage)
    : PreparedItem Image :=
  {| key := item_key item;
     caption := create_caption (title_clean item) (description_clean item);
     image := preprocess_image (img item) |}.

(** The grouping loop of [webdataset]'s [batched(batchsize)] with its
    default [partial=True]; a torch [DataLoader(batch_size=batchsize)] with
    its default [drop_last=False] over an iterable dataset groups the same
    way.  [batch] is the batch being filled. *)
Fixpoint batched_go {A : Type} (batchsize : nat) (batch data : list A)
    : list (list A) :=
  match data with
  | [] => if (length batch =? 0)%nat then [] else [batch]
  | sample :: data' =>
      if (batchsize <=? length batch)%nat
      then batch :: batched_go batchsize [sample] data'
      else batched_go batchsize (batch ++ [sample]) data'
  end.

Definition batched {A : Type} (batchsize : nat) (data : list A)
    : list (list A) :=
  batched_go batchsize [] data.

(** [DataLoader(torch_dataset, batch_size=batch_size * jax.device_count())],
    and [bs = batch_size * jax.device_count()] with [.batched(bs)]. *)
Definition dataloader {A : Type} (batch_size device_count : nat)
    (prepared_dataset : list A) : list (list A) :=
  batched (batch_size * device_count) prepared_dataset.

(** A sequence of batches of size [bs] whose last batch may be short, but
    is not empty. *)
Inductive batches_of {A : Type} (bs : nat) : list (list A) → Prop :=
| batches_nil : batches_of bs []
| batches_last (b : list A) :
    (0 < length b ≤ bs)%nat → batches_of bs [b]
| batches_cons (b : list A) (rest : list (list A)) :
    length b = bs → batches_of bs rest → batches_of bs (b :: rest).

(** ** Exceptions *)

Inductive exn := ZeroDivisionError | ValueError | UnicodeEncodeError.

Inductive result (A : Type) :=
| Ok (a : A)
| Raise (e : exn).
Arguments Ok {A} a.
Arguments Raise {A} e.

Definition bind {A B : Type} (m : result A) (k : A → result B) : result B :=
  match m with
  | Ok a => k a
  | Raise e => Raise e
  end.

Notation "'do' x <- m ; k" := (bind m (λ x, k))
  (at level 10, x name, m at level 100, k at level 200,
   format "'[v' 'do'  x  <-  m ; '/' k ']'").

(** [a % b] and [a // b] on Python integers: rounding towards minus
    infinity, the remainder with the sign of the divisor. *)
Definition py_mod (a b : Z) : result Z :=
  if b =? 0 then Raise ZeroDivisionError else Ok (a mod b).

Definition py_floordiv (a b : Z) : result Z :=
  if b =? 0 then Raise ZeroDivisionError else Ok (a / b).

(** ** Records and the output directory *)

(** One line of a split file. *)
Record record := {
  rkey : pystr;
  rcaption : pystr;
  rencoding : string
}.

Fixpoint rows_of (keys captions : list pystr) (encoding : list string)
    : list record :=
  match keys, captions, encoding with
  | k :: keys', c :: captions', e :: encoding' =>
      {| rkey := k; rcaption := c; rencoding := e |}
      :: rows_of keys' captions' encoding'
  | _, _, _ => []
  end.

(** [pd.DataFrame.from_dict({"key": .., "caption": .., "encoding": ..})]:
    the three columns must have one length. *)
Definition from_dict (keys captions : list pystr) (encoding : list string)
    : result (list record) :=
  if (length keys =? length captions)%nat
     && (length captions =? length encoding)%nat
  then Ok (rows_of keys captions encoding)
  else Raise ValueError.

(** The state of the split writer: the variable [file], the files of
    [output_dir] with their lines, the handles that are open, and the names
    passed to [open] so far. *)
Record state := {
  file : option string;
  fs : gmap string (list record);
  open_files : list string;
  opened_log : list string
}.

Definition initial (fs0 : gmap string (list record)) : state :=
  {| file := None; fs := fs0; open_files := []; opened_log := [] |}.

Fixpoint remove_first (h : string) (l : list string) : list string :=
  match l with
  | [] => []
  | x :: l' => if String.eqb h x then l' else x :: remove_first h l'
  end.

(** [file.close()] *)
Definition file_close (h : string) (st : state) : state :=
  {| file := file st; fs := fs st;
     open_files := remove_first h (open_files st);
     opened_log := opened_log st |}.

(** [file = open(output_dir/name, 'w')]: the file is created, or emptied when
    it exists. *)
Definition file_open_w (name : string) (st : state) : state :=
  {| file := Some name; fs := <[name := []]> (fs st);
     open_files := open_files st ++ [name];
     opened_log := opened_log st ++ [name] |}.

(** A Python [str] may hold a lone surrogate (a code point from U+D800 to
    U+DFFF); such a text has no UTF-8 encoding. *)
Definition surrogate (c : N) : bool := (55296 <=? c)%N && (c <=? 57343)%N.

Definition encodable (s : pystr) : bool :=
  forallb (λ c, negb (surrogate c)) s.

Definition serialisable (rows : list record) : bool :=
  forallb (λ r, encodable (rkey r) && encodable (rcaption r)) rows.

(** [batch_df.to_json(file, orient='records', lines=True)]: the rows are
    serialised first, which raises [UnicodeEncodeError] on a key or caption
    with a lone surrogate, before anything is written; then one line per row
    is appended at the end of the file.  With [None] for the file pandas
    returns the text and writes nothing; a closed handle refuses the
    write. *)
Definition to_json (f : option string) (rows : list record) (st : state)
    : result state :=
  if serialisable rows then
    match f with
    | None => Ok st
    | Some h =>
        if bool_decide (h ∈ open_files st)
        then Ok {| file := file st;
                   fs := <[h := default [] (fs st !! h) ++ rows]> (fs st);
                   open_files := open_files st;
                   opened_log := opened_log st |}
        else Raise ValueError
    end
  else Raise UnicodeEncodeError.

(** ** The way of a batch of images to the devices

    The image column of a batch is an array of shape [(b, 256, 256, 3)]: the
    images are cropped to [max_size] rows and columns before they are
    batched.

    [images.squeeze()] drops every axis of length one: the batch axis of a
    batch of exactly one image goes, and what is left is the image itself,
    of shape [(256, 256, 3)]. *)
Inductive squeezed (Image : Type) :=
| Batch (images : list Image)
| Single (image : Image).
Arguments Batch {Image} images.
Arguments Single {Image} image.

Definition squeeze_images {Image : Type} (images : list Image)
    : squeezed Image :=
  match images with
  | [image] => Single image
  | _ => Batch images
  end.

(** What [shard] hands to the devices: one block of images for each device,
    or, of an array that has lost its batch axis, one band of [rows] rows of
    the one image for each of the [devices]. *)
Inductive sharded (Image : Type) :=
| Blocks (blocks : list (list Image))
| Pieces (image : Image) (devices rows : nat).
Arguments Blocks {Image} blocks.
Arguments Pieces {Image} image devices rows.

Fixpoint chunks {A : Type} (size count : nat) (l : list A) : list (list A) :=
  match count with
  | O => []
  | S count' => take size l :: chunks size count' (drop size l)
  end.

(** [shard(x)] is [x.reshape((device_count, -1) + x.shape[1:])]: numpy
    raises [ValueError] unless the first axis of [x] splits evenly over the
    devices. *)
Definition shard_images {Image : Type} (device_count : nat)
    (x : squeezed Image) : result (sharded Image) :=
  match x with
  | Batch images =>
      if (device_count =? 0)%nat then Raise ValueError
      else if (length images mod device_count =? 0)%nat
      then Ok (Blocks (chunks (length images / device_count) device_count
                              images))
      else Raise ValueError
  | Single image =>
      if (device_count =? 0)%nat then Raise ValueError
      else if (max_size mod device_count =? 0)%nat
      then Ok (Pieces image device_count (max_size / device_count))
      else Raise ValueError
  end.

(** ** The encoding loop

<<
def encode_captioned_dataset(dataloader, output_dir, save_every=14):
    output_dir.mkdir(parents=True, exist_ok=True)
    file = None
    for n, batch in enumerate(tqdm(iter(dataloader))):
        if (n % save_every == 0):
            if file is not None:
                file.close()
            split_num = n // save_every
            file = open(output_dir/f'split_{split_num:05x}.jsonl', 'w')

        images = batch["image"].numpy()
        images = shard(images.squeeze())
        encoded = encode(images)
        encoded = encoded.reshape(-1, encoded.shape[-1])

        keys = batch["key"]
        captions = batch["caption"]

        encoded_as_string = list(map(lambda item: np.array2string(...), encoded))
        batch_df = pd.DataFrame.from_dict({"key": keys, "caption": captions,
                                           "encoding": encoded_as_string})
        batch_df.to_json(file, orient='records', lines=True)
>>

    [device_count] is [jax.device_count()].  [encode] stands for the
    pretrained model run on the devices, from the sharded array to the rows
    of [encoded] after [reshape(-1, encoded.shape[-1])], which flattens the
    axes in front of the last one.
    [output_dir] is the directory as a map from file names to their lines;
    [mkdir] with [exist_ok] leaves its files as they are. *)

Section Loop.
Context {Image : Type}.
Variable device_count : nat.
Variable encode : sharded Image → list (list Z).

(** The first half of an iteration: the rotation of the split file. *)
Definition rotate (save_every n : Z) (st : state) : result state :=
  do r <- py_mod n save_every;
  if r =? 0 then
    let st :=
      match file st with
      | Some h => file_close h st
      | None => st
      end in
    do split_num <- py_floordiv n save_every;
    Ok (file_open_w (split_name split_num) st)
  else Ok st.

(** The rows the loop makes of one batch. *)
Definition batch_rows (batch : list (PreparedItem Image))
    : result (list record) :=
  let images := map image batch in
  do images <- shard_images device_count (squeeze_images images);
  let encoded := encode images in
  let keys := map key batch in
  let captions := map caption batch in
  let encoded_as_string := map array2string encoded in
  from_dict keys captions encoded_as_string.

(** The second half: encode the batch and append its rows. *)
Definition append_batch (batch : list (PreparedItem Image)) (st : state)
    : result state :=
  do batch_df <- batch_rows batch;
  to_json (file st) batch_df st.

Definition step (save_every n : Z) (batch : list (PreparedItem Image))
    (st : state) : result state :=
  do st' <- rotate save_every n st;
  append_batch batch st'.

(** [for n, batch in enumerate(...)], from index [n] on. *)
Fixpoint loop (save_every n : Z) (batches : list (list (PreparedItem Image)))
    (st : state) : result state :=
  match batches with
  | [] => Ok st
  | batch :: batches' =>
      do st' <- step save_every n batch st;
      loop save_every (n + 1) batches' st'
  end.

Definition encode_captioned_dataset
    (dataloader : list (list (PreparedItem Image)))
    (output_dir : gmap string (list record)) (save_every : Z)
    : result state :=
  loop save_every 0 dataloader (initial output_dir).

(** The token rows the encoder returns for a batch that [shard]
    accepts. *)
Definition encoded_rows (batch : list (PreparedItem Image))
    : list (list Z) :=
  match shard_images device_count (squeeze_images (map image batch)) with
  | Ok images => encode images
  | Raise _ => []
  end.

(** The rows of a batch when the encoder returns one token row per
    image. *)
Definition batch_records (batch : list (PreparedItem Image)) : list record :=
  rows_of (map key batch) (map caption batch)
          (map array2string (encoded_rows batch)).

(** The batch goes through [shard] and comes back from the encoder with one
    token row per image. *)
Definition obeys (b : list (PreparedItem Image)) : Prop :=
  ∃ images,
    shard_images device_count (squeeze_images (map image b)) = Ok images
    ∧ length (encode images) = length b.

(** No key and no caption of the batch holds a lone surrogate. *)
Definition writable (b : list (PreparedItem Image)) : Prop :=
  Forall (λ it, encodable (key it) = true ∧ encodable (caption it) = true) b.

Definition passes (b : list (PreparedItem Image)) : Prop :=
  obeys b ∧ writable b.

(** The batches that go to split [k]: batches [k * save_every] up to
    [(k + 1) * save_every - 1]. *)
Definition split_batches (save_every k : nat)
    (batches : list (list (PreparedItem Image)))
    : list (list (PreparedItem Image)) :=
  take save_every (drop (k * save_every) batches).

Definition split_records (save_every k : nat)
    (batches : list (list (PreparedItem Image))) : list record :=
  flat_map batch_records (split_batches save_every k batches).

(** What the writer has done once the batches [done] are processed,
    starting from the directory contents [fs0]: nothing at all before the
    first batch; afterwards split [q], the split of the last batch, is the
    one open file, the splits [0 .. q] were opened in this order and hold
    the records of their batches, and no other file was touched. *)
Definition writer_inv (fs0 : gmap string (list record)) (save_every : nat)
    (done : list (list (PreparedItem Image))) (st : state) : Prop :=
  match length done with
  | O => st = initial fs0
  | S m =>
      let q := (m / save_every)%nat in
      file st = Some (split_name (Z.of_nat q))
      ∧ open_files st = [split_name (Z.of_nat q)]
      ∧ opened_log st = map (λ k, split_name (Z.of_nat k)) (seq 0 (S q))
      ∧ (∀ k : nat, (k ≤ q)%nat →
           fs st !! split_name (Z.of_nat k)
           = Some (split_records save_every k done))
      ∧ (∀ name : string,
           (∀ k : nat, (k ≤ q)%nat → name ≠ split_name (Z.of_nat k)) →
           fs st !! name = fs0 !! name)
  end.

(** The same between the rotation and the append of the iteration that
    follows the batches [done]: the split of the coming batch is open. *)
Definition rotated_inv (fs0 : gmap string (list record)) (save_every : nat)
    (done : list (list (PreparedItem Image))) (st : state) : Prop :=
  let q := (length done / save_every)%nat in
  file st = Some (split_name (Z.of_nat q))
  ∧ open_files st = [split_name (Z.of_nat q)]
  ∧ opened_log st = map (λ k, split_name (Z.of_nat k)) (seq 0 (S q))
  ∧ (∀ k : nat, (k ≤ q)%nat →
       fs st !! split_name (Z.of_nat k)
       = Some (split_records save_every k done))
  ∧ (∀ name : string,
       (∀ k : nat, (k ≤ q)%nat → name ≠ split_name (Z.of_nat k)) →
       fs st !! name = fs0 !! name).
End Loop.

(** The number of split files [n] batches need. *)
Definition split_count (save_every n : nat) : nat :=
  ((n + save_every - 1) / save_every)%nat.

(** A stub encoder for examples: an image is its own token row, and every
    device returns one row for the band of an image it is given. *)
Definition stub_encode (images : sharded (list Z)) : list (list Z) :=
  match images with
  | Blocks blocks => concat blocks
  | Pieces image devices _ => repeat image devices
  end.

Definition synthetic_item (i : Z) : PreparedItem (list Z) :=
  {| key := of_string "k" ++ [Z.to_N (48 + i)];
     caption := create_caption (of_string "item") [];
     image := [i; i + 1] |}.

Definition five_items : list (PreparedItem (list Z)) :=
  map synthetic_item [0; 1; 2; 3; 4].

Definition six_items : list (PreparedItem (list Z)) :=
  map synthetic_item [0; 1; 2; 3; 4; 5].

(** A record left in the output directory by an earlier run. *)
Definition stale_record : record :=
  {| rkey := of_string "old"; rcaption := of_string "from an earlier run";
     rencoding := "[1]" |}.

(** ** The caption builder of the webdataset notebook

    It receives the decoded [json] entry of a sample, a dictionary.

<<
def create_caption(item):
    title = item['title_clean'].strip()
    description = item['description_clean'].strip()
    if len(title) > 0 and title[-1] not in '.!?': title += '.'
    return f'{title} {description}'
>> *)

(** A value of the decoded [json] entry: what [json.loads] makes of a JSON
    text, a [str], [None], a [bool], an [int], a [float] (given by its 64
    bits), a [list] or a [dict] with [str] keys.  This is the domain of the
    model: a dictionary built by hand could hold other values, [bytes] for
    one, which the decoder never produces. *)
#[warnings="-register-all"] Inductive pyval :=
| PyStr (s : pystr)
| PyNone
| PyBool (b : bool)
| PyInt (z : Z)
| PyFloat (bits : Z)
| PyList (l : list pyval)
| PyDict (d : list (pystr * pyval)).

Inductive item_exn :=
| KeyError (k : string)
| AttributeError.

Inductive outcome (A : Type) :=
| Returns (a : A)
| Throws (e : item_exn).
Arguments Returns {A} a.
Arguments Throws {A} e.

(** [item[k]] *)
Definition getitem (item : gmap string pyval) (k : string) : outcome pyval :=
  match item !! k with
  | Some v => Returns v
  | None => Throws (KeyError k)
  end.

(** [v.strip()]: of the values of a decoded JSON text only a [str] has the
    method; on the others the attribute lookup raises [AttributeError]. *)
Definition py_strip (v : pyval) : outcome pystr :=
  match v with
  | PyStr s => Returns (strip s)
  | PyNone | PyBool _ | PyInt _ | PyFloat _ | PyList _ | PyDict _ =>
      Throws AttributeError
  end.

Definition create_caption_item (item : gmap string pyval) : outcome pystr :=
  match getitem item "title_clean" with
  | Throws e => Throws e
  | Returns v =>
      match py_strip v with
      | Throws e => Throws e
      | Returns title =>
          match getitem item "description_clean" with
          | Throws e => Throws e
          | Returns v' =>
              match py_strip v' with
              | Throws e => Throws e
              | Returns description =>
                  let title :=
                    if (0 <? length title)%nat
                       && negb (char_in (last_char title) (of_string ".!?"))
                    then title ++ of_string "."
                    else title in
                  Returns (title ++ of_string " " ++ description)
              end
          end
      end
  end.

Definition blank (s : pystr) : Prop := Forall (λ c, isspace c = true) s.

(** ** Notions for the properties of the loop *)

(** The writer holds a file, and it is the only open one. *)
Definition one_handle (st : state) : Prop :=
  ∃ h, file st = Some h ∧ open_files st = [h].

(** An item whose caption holds the lone surrogate U+D800. *)
Definition surrogate_item : PreparedItem (list Z) :=
  {| key := of_string "k9";
     caption := of_string "cut " ++ [55296%N];
     image := [9; 10] |}.

(** The integers a numpy array of a 64-bit integer type can hold. *)
Definition is_int64 (x : Z) : Prop :=
  -9223372036854775808 <= x < 9223372036854775808.

(** ** Array shapes around the encoder

<<
        images = shard(images.squeeze())
        encoded = encode(images)
        encoded = encoded.reshape(-1, encoded.shape[-1])
>>

    Only the shapes are modelled: a shape is the list of the axis lengths. *)

(** The number of elements of an array of that shape. *)
Definition size_of (shape : list nat) : nat := fold_right Nat.mul 1%nat shape.

(** [x.squeeze()]: the axes of length one disappear. *)
Definition squeeze (shape : list nat) : list nat :=
  List.filter (λ d, negb (d =? 1)%nat) shape.

(** flax's [shard(x)], [x.reshape((device_count, -1) + x.shape[1:])]: the
    [-1] stands for the length that makes the sizes agree; there is none
    when the known lengths multiply to 0 or do not divide the size. *)
Definition shard (device_count : nat) (shape : list nat) : option (list nat) :=
  let rest := tail shape in
  let known := (device_count * size_of rest)%nat in
  if (known =? 0)%nat then None
  else if (size_of shape mod known =? 0)%nat
       then Some (device_count :: (size_of shape / known)%nat :: rest)
       else None.

(** [encoded.reshape(-1, encoded.shape[-1])] *)
Definition reshape_rows (shape : list nat) : option (list nat) :=
  match last shape with
  | None => None
  | Some l =>
      if (l =? 0)%nat then None
      else if (size_of shape mod l =? 0)%nat
           then Some [(size_of shape / l)%nat; l]
           else None
  end.

(** ** The logging exception handler of the webdataset notebook

<<
# UNUSED - Log exceptions to a file
def ignore_and_log(exn):
    with open('errors.txt', 'a') as f:
        f.write(f'{repr(exn)}\n')
    return True
>>

    An exception is given by its [repr]; the files of the working directory
    are a map from names to their text. *)
Definition ignore_and_log (repr_exn : string) (files : gmap string string)
    : gmap string string * bool :=
  (<["errors.txt" :=
       default "" (files !! "errors.txt") +:+ repr_exn +:+ newline]> files,
   true).

(** How webdataset's processing stages ([map], [map_dict], ...) use a
    handler: a sample whose processing raises is passed to the handler, and
    the iteration goes on with the next sample when the handler returns
    true and stops otherwise.  [f] returns the processed sample or the [repr]
    of the exception. *)
Fixpoint map_with_handler {A B : Type} (f : A → B + string)
    (handler : string → gmap string string → gmap string string * bool)
    (data : list A) (files : gmap string string)
    : list B * gmap string string :=
  match data with
  | [] => ([], files)
  | sample :: data' =>
      match f sample with
      | inl r =>
          let '(out, files') := map_with_handler f handler data' files in
          (r :: out, files')
      | inr exn =>
          let '(files1, go_on) := handler exn files in
          if go_on then map_with_handler f handler data' files1
          else ([], files1)
      end
  end.

(** The processed samples, and the exceptions, of a sequence of samples. *)
Definition successes {A B : Type} (f : A → B + string) (data : list A)
    : list B :=
  omap (λ sample, match f sample with inl r => Some r | inr _ => None end) data.

Definition failures {A B : Type} (f : A → B + string) (data : list A)
    : list string :=
  omap (λ sample, match f sample with inl _ => None | inr e => Some e end) data.

Fixpoint log_lines (exns : list string) : string :=
  match exns with
  | [] => ""
  | e :: exns' => e +:+ newline +:+ log_lines exns'
  end.

(** Rows of a dataset for examples; their images are already token rows. *)
Definition synthetic_row (i : Z) : DatasetItem (list Z) :=
  {| item_key := of_string "k" ++ [Z.to_N (48 + i)];
     title_clean := of_string " item";
     description_clean := of_string " ";
     img := [i; i + 1] |}.

Definition five_rows : list (DatasetItem (list Z)) :=
  map synthetic_row [0; 1; 2; 3; 4].
(** ** Facts about trimming *)

Lemma lstrip_blank_app (a s : pystr) :
  Forall (λ c, isspace c = true) a → lstrip (a ++ s) = lstrip s.
Proof.
  induction 1 as [|c a Hc _ IH]; simpl; [done|].
  by rewrite Hc.
Qed.

Lemma lstrip_head_nonblank (s : pystr) :
  (∀ c, head s = Some c → isspace c = false) → lstrip s = s.
Proof.
  destruct s as [|c s]; simpl; [done|].
  intros H. by rewrite (H c eq_refl).
Qed.

Lemma lstrip_split (s : pystr) :
  ∃ a, s = a ++ lstrip s ∧ Forall (λ c, isspace c = true) a
       ∧ (∀ c, head (lstrip s) = Some c → isspace c = false).
Proof.
  induction s as [|c s (a & Heq & Ha & Hh)]; simpl.
  - exists []. split_and!; [done|constructor|done].
  - destruct (isspace c) eqn:Hc.
    + exists (c :: a). split_and!; [by simpl; rewrite <- Heq|by constructor|done].
    + exists []. split_and!; [done|constructor|].
      intros c' [= <-]. done.
Qed.

Lemma last_rev_head {A} (l : list A) : last (rev l) = head l.
Proof. destruct l as [|x l]; simpl; [done|]. by rewrite last_snoc. Qed.

Lemma head_rev_last {A} (l : list A) : head (rev l) = last l.
Proof. by rewrite <- (last_rev_head (rev l)), rev_involutive. Qed.

Lemma rstrip_split (s : pystr) :
  ∃ b, s = rstrip s ++ b ∧ Forall (λ c, isspace c = true) b
       ∧ (∀ c, last (rstrip s) = Some c → isspace c = false).
Proof.
  destruct (lstrip_split (rev s)) as (a & Heq & Ha & Hh).
  exists (rev a). split_and!.
  - unfold rstrip. rewrite <- rev_app_distr, <- Heq. by rewrite rev_involutive.
  - by apply Forall_rev.
  - unfold rstrip. intros c. rewrite last_rev_head. apply Hh.
Qed.

Lemma rstrip_blank_app (s b : pystr) :
  Forall (λ c, isspace c = true) b → rstrip (s ++ b) = rstrip s.
Proof.
  intros Hb. unfold rstrip. rewrite rev_app_distr.
  rewrite lstrip_blank_app; [done|]. by apply Forall_rev.
Qed.

Lemma rstrip_last_nonblank (s : pystr) :
  (∀ c, last s = Some c → isspace c = false) → rstrip s = s.
Proof.
  intros H. unfold rstrip. rewrite lstrip_head_nonblank.
  - apply rev_involutive.
  - intros c. rewrite head_rev_last. apply H.
Qed.

Lemma rstrip_head (s : pystr) c :
  head (rstrip s) = Some c → head s = Some c.
Proof.
  destruct (rstrip_split s) as (b & Heq & _ & _).
  intros H. rewrite Heq. by destruct (rstrip s).
Qed.

Lemma strip_trimmed (s : pystr) : trimmed_of s (strip s).
Proof.
  destruct (lstrip_split s) as (a & Ha & Hab & Hh).
  destruct (rstrip_split (lstrip s)) as (b & Hb & Hbb & Hl).
  exists a, b. unfold strip. split_and!; try done.
  - by rewrite <- Hb.
  - intros c Hc. apply Hh. by apply rstrip_head.
Qed.

Lemma trimmed_unique (s r : pystr) : trimmed_of s r → r = strip s.
Proof.
  intros (a & b & -> & Ha & Hb & Hh & Hl). unfold strip.
  rewrite lstrip_blank_app; [|done].
  destruct r as [|c r].
  - simpl. induction Hb as [|x b Hx _ IH]; simpl; [done|].
    rewrite Hx. apply IH.
  - rewrite lstrip_head_nonblank.
    + rewrite rstrip_blank_app; [|done]. by rewrite rstrip_last_nonblank.
    + simpl. intros c' [= <-]. by apply Hh.
Qed.

Lemma char_in_terminators (c : N) :
  char_in c (of_string ".!?") = true ↔ ends_sentence c.
Proof.
  unfold char_in, ends_sentence. simpl.
  rewrite !orb_true_iff, !N.eqb_eq. intuition discriminate.
Qed.

Lemma needs_period_iff (t : pystr) :
  (0 <? length t)%nat && negb (char_in (last_char t) (of_string ".!?")) = true
  ↔ t ≠ [] ∧ (∀ c, last t = Some c → ¬ ends_sentence c).
Proof.
  rewrite andb_true_iff, negb_true_iff, Nat.ltb_lt.
  rewrite <- not_true_iff_false, char_in_terminators.
  unfold last_char. split.
  - intros [Hlen Hc]. split.
    + intros ->. simpl in Hlen. lia.
    + intros c Hl. rewrite Hl in Hc. exact Hc.
  - intros [Hne Hc]. split.
    + destruct t; [done|simpl; lia].
    + destruct (last t) as [c|] eqn:Hl; [by apply Hc|].
      apply last_None in Hl. done.
Qed.

Lemma last_app_period (t : pystr) : last (t ++ of_string ".") = Some 46%N.
Proof. apply last_snoc. Qed.

(** ** The caption builder *)

(** C3.  Whatever the trimmed title [t] and the trimmed description [d] of
    the two inputs are, [create_caption] returns [t], with a period appended
    exactly when [t] is not empty and does not end in one of [. ! ?], then one
    space, then [d] (also when [d] is empty); the text before the space does
    not end with a blank and [d] does not start with one, so the space is the
    only one at the joint. *)
Theorem create_caption_spec (title description t d : pystr) :
  trimmed_of title t →
  trimmed_of description d →
  (t ≠ [] ∧ (∀ c, last t = Some c → ¬ ends_sentence c) →
     create_caption title description
     = (t ++ of_string ".") ++ of_string " " ++ d)
  ∧ (t = [] ∨ (∃ c, last t = Some c ∧ ends_sentence c) →
     create_caption title description = t ++ of_string " " ++ d)
  ∧ (∃ t', create_caption title description = t' ++ of_string " " ++ d
        ∧ (t' = t ∨ t' = t ++ of_string ".")
        ∧ (∀ c, last t' = Some c → isspace c = false)
        ∧ (∀ c, head d = Some c → isspace c = false)).
Proof.
  intros Ht Hd.
  pose proof (trimmed_unique _ _ Ht) as Et.
  pose proof (trimmed_unique _ _ Hd) as Ed.
  destruct Ht as (_ & _ & _ & _ & _ & _ & Htl).
  destruct Hd as (_ & _ & _ & _ & _ & Hdh & _).
  unfold create_caption. rewrite <- Et, <- Ed.
  pose proof (needs_period_iff t) as Hiff.
  destruct ((0 <? length t)%nat
            && negb (char_in (last_char t) (of_string ".!?"))) eqn:Hb.
  - split_and!.
    + done.
    + intros [-> | (c & Hl & Hc)].
      * by destruct (proj1 Hiff eq_refl) as [Hne _].
      * destruct (proj1 Hiff eq_refl) as [_ Hno]. by destruct (Hno c Hl).
    + exists (t ++ of_string "."). split_and!; [done|by right| |done].
      intros c. rewrite last_app_period. by intros [= <-].
  - split_and!.
    + intros Hyes. apply Hiff in Hyes. discriminate.
    + done.
    + exists t. split_and!; [done|by left|done|done].
Qed.

Lemma create_caption_spec_witness :
  create_caption (of_string "  hello world ") (of_string "a scene ")
  = of_string "hello world. a scene".
Proof.
  assert (Ht : trimmed_of (of_string "  hello world ") (of_string "hello world")).
  { exists (of_string "  "), (of_string " ").
    split_and!; [reflexivity|by repeat constructor|by repeat constructor| |].
    - by intros c [= <-].
    - by intros c [= <-]. }
  assert (Hd : trimmed_of (of_string "a scene ") (of_string "a scene")).
  { exists [], (of_string " ").
    split_and!; [reflexivity|by repeat constructor|by repeat constructor| |].
    - by intros c [= <-].
    - by intros c [= <-]. }
  destruct (create_caption_spec _ _ _ _ Ht Hd) as (Hyes & _ & _).
  rewrite Hyes; [reflexivity|].
  split; [discriminate|].
  intros c [= <-]. unfold ends_sentence. intros [?|[?|?]]; discriminate.
Defined.

Example create_caption_examples :
  create_caption (of_string "hello world") (of_string "a scene")
  = of_string "hello world. a scene"
  ∧ create_caption (of_string "Done!") (of_string "") = of_string "Done! "
  ∧ create_caption (of_string " ") (of_string "x") = of_string " x".
Proof. by vm_compute. Qed.

(** ** Strings *)

Lemma string_app_cons (c : ascii) (s t : string) :
  String c s +:+ t = String c (s +:+ t).
Proof. reflexivity. Qed.

Lemma string_app_nil_l (t : string) : "" +:+ t = t.
Proof. reflexivity. Qed.

Lemma string_app_nil_r (s : string) : s +:+ "" = s.
Proof.
  induction s as [|c s IH]; [reflexivity|].
  rewrite string_app_cons. by rewrite IH.
Qed.

Lemma string_app_assoc (a b c : string) : (a +:+ b) +:+ c = a +:+ (b +:+ c).
Proof.
  induction a as [|x a IH]; [reflexivity|].
  rewrite !string_app_cons. by rewrite IH.
Qed.

Lemma string_length_app (a b : string) :
  String.length (a +:+ b) = (String.length a + String.length b)%nat.
Proof.
  induction a as [|x a IH]; [reflexivity|].
  rewrite string_app_cons. simpl. by rewrite IH.
Qed.

Lemma string_drop_app (a b : string) :
  string_drop (String.length a) (a +:+ b) = b.
Proof. induction a as [|x a IH]; [reflexivity|]. exact IH. Qed.

Lemma all_chars_app (p : ascii → bool) (a b : string) :
  all_chars p (a +:+ b) = all_chars p a && all_chars p b.
Proof.
  induction a as [|x a IH]; [reflexivity|].
  rewrite string_app_cons. simpl. rewrite IH. by rewrite andb_assoc.
Qed.

Lemma zeros_length (k : nat) : String.length (zeros k) = k.
Proof. induction k as [|k IH]; simpl; [done|by rewrite IH]. Qed.

Lemma zeros_hex (k : nat) : all_chars is_lower_hex (zeros k) = true.
Proof. induction k as [|k IH]; simpl; [done|exact IH]. Qed.

Lemma hex_value_zeros (k : nat) (s : string) :
  hex_value_go 0 (zeros k +:+ s) = hex_value_go 0 s.
Proof. induction k as [|k IH]; [reflexivity|]. exact IH. Qed.

(** ** Digits *)

Lemma dec_digit_char (d : N) : (d < 10)%N → dec_digit (digit_char d) = Some d.
Proof.
  intros Hd. unfold dec_digit, digit_char.
  destruct (N.ltb_spec d 10); [|lia].
  rewrite N_ascii_embedding by lia.
  destruct (N.leb_spec 48 (48 + d)); [|lia].
  destruct (N.leb_spec (48 + d) 57); [|lia].
  simpl. f_equal. lia.
Qed.

Lemma hex_digit_char (d : N) : (d < 16)%N → hex_digit (digit_char d) = Some d.
Proof.
  intros Hd. unfold hex_digit, digit_char.
  destruct (N.ltb_spec d 10).
  - rewrite N_ascii_embedding by lia.
    destruct (N.leb_spec 48 (48 + d)); [|lia].
    destruct (N.leb_spec (48 + d) 57); [|lia].
    simpl. f_equal. lia.
  - rewrite N_ascii_embedding by lia.
    destruct (N.leb_spec 48 (87 + d)); [|lia].
    destruct (N.leb_spec (87 + d) 57); [lia|].
    destruct (N.leb_spec 97 (87 + d)); [|lia].
    destruct (N.leb_spec (87 + d) 102); [|lia].
    simpl. f_equal. lia.
Qed.

Lemma digits_go_app (base : N) (fuel : nat) (n : N) (acc : string) :
  digits_go base fuel n acc = digits_go base fuel n "" +:+ acc.
Proof.
  revert n acc. induction fuel as [|fuel IH]; intros n acc; simpl; [done|].
  destruct (n <? base)%N; [done|].
  rewrite IH. rewrite (IH _ (String _ "")).
  by rewrite string_app_assoc.
Qed.

(** A number below [base ^ k] has at most [k] digits. *)
Lemma digits_go_length (base : N) (fuel : nat) :
  ∀ (k : nat) (n : N) (acc : string),
    (0 < base)%N → (1 ≤ k)%nat → (n < base ^ N.of_nat k)%N →
    (String.length (digits_go base fuel n acc) ≤ k + String.length acc)%nat.
Proof.
  induction fuel as [|fuel IH]; intros k n acc Hb Hk Hn; simpl; [lia|].
  destruct (N.ltb_spec n base) as [Hlt|Hge]; [simpl; lia|].
  destruct k as [|[|k]]; [lia| |].
  - change (N.of_nat 1) with 1%N in Hn. rewrite N.pow_1_r in Hn. lia.
  - etrans; [apply (IH (S k))|simpl; lia]; [done|lia|].
    rewrite Nat2N.inj_succ, N.pow_succ_r' in Hn.
    apply N.Div0.div_lt_upper_bound. exact Hn.
Qed.

Lemma digits_go_hex (fuel : nat) (n : N) (acc : string) :
  all_chars is_lower_hex acc = true →
  all_chars is_lower_hex (digits_go 16 fuel n acc) = true.
Proof.
  revert n acc. induction fuel as [|fuel IH]; intros n acc Hacc; simpl; [done|].
  assert (Hc : all_chars is_lower_hex (String (digit_char (n mod 16)) acc) = true).
  { simpl. rewrite Hacc. unfold is_lower_hex.
    rewrite hex_digit_char; [done|]. apply N.mod_lt. done. }
  destruct (n <? 16)%N; [exact Hc|]. by apply IH.
Qed.

Lemma enough_div (base : N) (fuel : nat) (n : N) :
  (2 ≤ base)%N → enough (S fuel) n → enough fuel (n / base).
Proof.
  unfold enough. intros Hb Hn.
  rewrite Nat2N.inj_succ, N.pow_succ_r' in Hn.
  apply N.Div0.div_lt_upper_bound.
  eapply N.lt_le_trans; [exact Hn|].
  apply N.mul_le_mono_r. exact Hb.
Qed.

Lemma enough_digits (n : N) : enough (S (N.to_nat (N.log2 n))) n.
Proof.
  unfold enough. rewrite Nat2N.inj_succ, N2Nat.id.
  destruct n as [|p]; [done|].
  apply N.log2_spec. done.
Qed.

Lemma hex_value_digits (fuel : nat) :
  ∀ (n : N) (rest : string), enough fuel n →
    hex_value_go 0 (digits_go 16 fuel n rest) = hex_value_go n rest.
Proof.
  induction fuel as [|fuel IH]; intros n rest Hn; simpl.
  - unfold enough in Hn. simpl in Hn. by replace n with 0%N by lia.
  - destruct (N.ltb_spec n 16) as [Hlt|Hge].
    + simpl. rewrite hex_digit_char by (apply N.mod_lt; done).
      rewrite N.mod_small by done. done.
    + rewrite IH by (apply enough_div; [lia|done]).
      simpl. rewrite hex_digit_char by (apply N.mod_lt; done).
      f_equal. rewrite (N.div_mod n 16) at 3 by done. done.
Qed.

(** ** Names of split files *)

Lemma format_05x_nonneg (k : Z) :
  0 ≤ k → format_05x k = zfill 5 (digits 16 (Z.to_N k)).
Proof.
  intros Hk. unfold format_05x.
  destruct (Z.ltb_spec k 0); [lia|].
  f_equal. f_equal. lia.
Qed.

Lemma name_index_split_name (k : Z) :
  0 ≤ k → name_index (split_name k) = Z.to_N k.
Proof.
  intros Hk. unfold name_index, split_name.
  change 6%nat with (String.length "split_"). rewrite string_drop_app.
  rewrite format_05x_nonneg by done. unfold zfill.
  rewrite string_app_assoc, hex_value_zeros.
  unfold digits. rewrite <- digits_go_app.
  rewrite hex_value_digits by apply enough_digits.
  reflexivity.
Qed.

Lemma split_name_inj (j k : Z) :
  0 ≤ j → 0 ≤ k → split_name j = split_name k → j = k.
Proof.
  intros Hj Hk Heq.
  apply (f_equal name_index) in Heq.
  rewrite !name_index_split_name in Heq by done. lia.
Qed.

Lemma hex_digit_lt (c : ascii) (v : N) : hex_digit c = Some v → (v < 16)%N.
Proof.
  unfold hex_digit. intros H.
  destruct (N.leb_spec 48 (N_of_ascii c)), (N.leb_spec (N_of_ascii c) 57);
    simpl in H; try (injection H as <-; lia);
    destruct (N.leb_spec 97 (N_of_ascii c)), (N.leb_spec (N_of_ascii c) 102);
    simpl in H; try discriminate; injection H as <-; lia.
Qed.

(** A text of [k] hexadecimal digits has a value below [16 ^ k]. *)
Lemma hex_value_bound (d : string) :
  ∀ acc : N,
    (hex_value_go acc d < (acc + 1) * 16 ^ N.of_nat (String.length d))%N.
Proof.
  induction d as [|c d IH]; intros acc.
  - simpl. lia.
  - change (String.length (String c d)) with (S (String.length d)).
    rewrite Nat2N.inj_succ, N.pow_succ_r'.
    assert (HP : (0 < 16 ^ N.of_nat (String.length d))%N).
    { apply N.neq_0_lt_0, N.pow_nonzero. done. }
    simpl. destruct (hex_digit c) as [v|] eqn:Hc.
    + apply hex_digit_lt in Hc. specialize (IH (16 * acc + v)%N). nia.
    + nia.
Qed.

(** C7, as the code has it.  The file of a split index [k] is named
    [split_D.jsonl] where [D] is [k] in lowercase hexadecimal: exactly five
    digits, zero-padded, while [k] is below [16 ^ 5], and more than five
    digits, none cut off, from [16 ^ 5] on. *)
Theorem split_name_digits (k : Z) :
  0 ≤ k →
  ∃ d : string,
    split_name k = "split_" +:+ d +:+ ".jsonl"
    ∧ all_chars is_lower_hex d = true
    ∧ hex_value_go 0 d = Z.to_N k
    ∧ (k < 16 ^ 5 → String.length d = 5%nat)
    ∧ (16 ^ 5 ≤ k → (5 < String.length d)%nat).
Proof.
  intros Hk. exists (format_05x k). split; [done|].
  rewrite format_05x_nonneg by done.
  assert (Hhex : all_chars is_lower_hex (zfill 5 (digits 16 (Z.to_N k))) = true).
  { unfold zfill. rewrite all_chars_app, zeros_hex. simpl.
    unfold digits. by apply digits_go_hex. }
  assert (Hval : hex_value_go 0 (zfill 5 (digits 16 (Z.to_N k))) = Z.to_N k).
  { unfold zfill. rewrite hex_value_zeros. unfold digits.
    by rewrite hex_value_digits by apply enough_digits. }
  split_and!; try done.
  - intros Hlt.
    assert (Hlen : (String.length (digits 16 (Z.to_N k)) ≤ 5)%nat).
    { unfold digits.
      etrans; [apply (digits_go_length 16 _ 5)|simpl; lia]; [done|lia|].
      change (16 ^ N.of_nat 5)%N with (Z.to_N (16 ^ 5)). lia. }
    unfold zfill. rewrite string_length_app, zeros_length. lia.
  - intros Hge.
    destruct (decide (5 < String.length (zfill 5 (digits 16 (Z.to_N k))))%nat)
      as [|Hshort]; [done|exfalso].
    pose proof (hex_value_bound (zfill 5 (digits 16 (Z.to_N k))) 0) as Hb.
    rewrite Hval in Hb.
    assert (Hpow : (16 ^ N.of_nat (String.length (zfill 5 (digits 16 (Z.to_N k))))
                    ≤ 16 ^ 5)%N).
    { apply N.pow_le_mono_r; [done|lia]. }
    change (16 ^ 5)%N with (Z.to_N (16 ^ 5)) in Hpow. lia.
Qed.

Lemma split_name_digits_witness :
  0 ≤ 255
  ∧ ∃ d : string,
      split_name 255 = "split_" +:+ d +:+ ".jsonl"
      ∧ all_chars is_lower_hex d = true
      ∧ hex_value_go 0 d = 255%N
      ∧ (255 < 16 ^ 5 → String.length d = 5%nat)
      ∧ (16 ^ 5 ≤ 255 → (5 < String.length d)%nat).
Proof.
  assert (H : 0 ≤ 255) by lia.
  split; [exact H|]. exact (split_name_digits 255 H).
Defined.

Example split_name_examples :
  split_name 0 = "split_00000.jsonl" ∧ split_name 255 = "split_000ff.jsonl"
  ∧ split_name 1048575 = "split_fffff.jsonl"
  ∧ split_name 1048576 = "split_100000.jsonl".
Proof. by vm_compute. Qed.

(** ** Rendering and reading back a token row *)

Lemma py_str_length (x : Z) : is_int32 x → (String.length (py_str x) ≤ 11)%nat.
Proof.
  intros Hx. unfold is_int32 in Hx.
  assert (Hd : (String.length (digits 10 (Z.abs_N x)) ≤ 10)%nat).
  { unfold digits.
    etrans; [apply (digits_go_length 10 _ 10)|simpl; lia]; [done|lia|].
    change (10 ^ N.of_nat 10)%N with 10000000000%N. lia. }
  unfold py_str. destruct (x <? 0).
  - rewrite string_app_cons, string_app_nil_l. simpl. lia.
  - lia.
Qed.

Lemma join_commas_snoc (ws : list string) (w : string) :
  join_commas (ws ++ [w])
  = fold_right (λ v r, v +:+ "," +:+ r) "" ws +:+ w.
Proof.
  induction ws as [|v ws IH]; [reflexivity|].
  change ((v :: ws) ++ [w]) with (v :: (ws ++ [w])).
  change (join_commas (v :: (ws ++ [w])))
    with (match ws ++ [w] with
          | [] => v
          | _ :: _ => v +:+ "," +:+ join_commas (ws ++ [w])
          end).
  destruct (ws ++ [w]) eqn:E; [by destruct ws|].
  rewrite IH. simpl. by rewrite !string_app_assoc.
Qed.

(** While the words fit on the line, the element loop only appends them,
    each followed by the separator. *)
Lemma fold_put_word_fits (W : Z) (p : string) (ws : list string) :
  ∀ line : string,
    Forall (λ w, (String.length w ≤ 11)%nat) ws →
    Z.of_nat (String.length line) + 12 * Z.of_nat (length ws) ≤ W →
    fold_left (put_word W p) ws ("", line)
    = ("", line +:+ fold_right (λ v r, v +:+ "," +:+ r) "" ws).
Proof.
  induction ws as [|w ws IH]; intros line Hws Hfit; simpl.
  - by rewrite string_app_nil_r.
  - inversion Hws as [|? ? Hw Hws']; subst.
    simpl length in Hfit.
    unfold put_word at 2, extend_line.
    destruct (Z.ltb_spec W
      (Z.of_nat (String.length line) + Z.of_nat (String.length w))); [lia|].
    simpl andb. cbv iota beta.
    rewrite IH; [|done|].
    + unfold separator. by rewrite !string_app_assoc.
    + unfold separator. rewrite !string_length_app. simpl String.length. lia.
Qed.

Lemma fold_put_word_length (ws : list string) :
  Forall (λ w, (String.length w ≤ 11)%nat) ws →
  (String.length (fold_right (λ v r, v +:+ "," +:+ r) "" ws)
   ≤ 12 * length ws)%nat.
Proof.
  induction 1 as [|w ws Hw _ IH]; simpl; [lia|].
  rewrite !string_length_app. simpl String.length. lia.
Qed.

(** A row of at most [threshold] 32-bit integers is rendered on one line and
    in full. *)
Lemma array2string_bracketed (a : list Z) :
  (length a ≤ threshold)%nat → Forall is_int32 a →
  array2string a = bracketed a.
Proof.
  intros Hlen Hint. unfold array2string, bracketed.
  destruct (Nat.eqb_spec (length a) 0) as [Hz|Hnz].
  { destruct a; [reflexivity|discriminate]. }
  destruct (Nat.ltb_spec threshold (length a)); [lia|].
  change (negb ("" =? "")%string) with false. cbv beta iota zeta.
  simpl andb. cbv iota.
  change (fold_left _ (map py_str []) ("", " ")) with ("", " ").
  destruct (exists_last (l := a)) as (front & x & ->); [by destruct a|].
  rewrite removelast_last, last_last.
  rewrite length_app in Hlen. simpl in Hlen.
  apply Forall_app in Hint as [Hfront Hx].
  inversion Hx as [|? ? Hx' _]; subst.
  assert (Hws : Forall (λ w, (String.length w ≤ 11)%nat) (map py_str front)).
  { apply Forall_map. eapply Forall_impl; [exact Hfront|].
    intros y Hy. by apply py_str_length. }
  set (W := max_line_width - _).
  assert (HW : W = 49999) by reflexivity.
  unfold threshold in Hlen.
  rewrite fold_put_word_fits;
    [|done|rewrite length_map; simpl String.length; lia].
  unfold extend_line.
  pose proof (fold_put_word_length _ Hws) as Hl. rewrite length_map in Hl.
  pose proof (py_str_length x Hx') as Hlx.
  destruct (Z.ltb_spec W
     (Z.of_nat (String.length
        (" " +:+ fold_right (λ v r, v +:+ "," +:+ r) "" (map py_str front)))
      + Z.of_nat (String.length (py_str x)))) as [Hwrap|_].
  { rewrite string_length_app in Hwrap. simpl String.length in Hwrap. lia. }
  simpl andb. cbv iota.
  rewrite map_app. simpl map. rewrite join_commas_snoc.
  rewrite string_app_nil_l, !string_app_assoc.
  rewrite (string_drop_app " ").
  by rewrite !string_app_assoc.
Qed.

Lemma parse_items_digit (d : N) (s : string) (acc : list Z) (neg : bool)
    (cur : option N) :
  (d < 10)%N →
  parse_items (String (digit_char d) s) acc neg cur
  = parse_items s acc neg (Some (10 * default 0 cur + d)%N).
Proof. intros Hd. simpl. by rewrite dec_digit_char. Qed.

Lemma parse_items_digits (fuel : nat) :
  ∀ (n : N) (rest : string) (acc : list Z) (neg : bool),
    enough (S fuel) n →
    parse_items (digits_go 10 (S fuel) n rest) acc neg None
    = parse_items rest acc neg (Some n).
Proof.
  induction fuel as [|fuel IH]; intros n rest acc neg Hn.
  - unfold enough in Hn. change (2 ^ N.of_nat 1)%N with 2%N in Hn.
    simpl. destruct (N.ltb_spec n 10); [|lia].
    rewrite parse_items_digit by (apply N.mod_lt; done).
    simpl. by rewrite N.mod_small.
  - change (digits_go 10 (S (S fuel)) n rest)
      with (if (n <? 10)%N then String (digit_char (n mod 10)) rest
            else digits_go 10 (S fuel) (n / 10)
                   (String (digit_char (n mod 10)) rest)).
    destruct (N.ltb_spec n 10).
    + rewrite parse_items_digit by (apply N.mod_lt; done).
      simpl. by rewrite N.mod_small.
    + rewrite IH by (apply enough_div; [lia|done]).
      rewrite parse_items_digit by (apply N.mod_lt; done).
      simpl default. f_equal. f_equal.
      rewrite (N.div_mod n 10) at 3 by done. done.
Qed.

Lemma parse_items_py_str (x : Z) (rest : string) (acc : list Z) :
  ∃ (neg : bool) (v : N),
    signed neg v = x
    ∧ parse_items (py_str x +:+ rest) acc false None
      = parse_items rest acc neg (Some v).
Proof.
  unfold py_str. destruct (Z.ltb_spec x 0) as [Hneg|Hpos].
  - exists true, (Z.abs_N x). split; [unfold signed; lia|].
    rewrite string_app_assoc, string_app_cons, string_app_nil_l.
    change (parse_items (String "-" ?s) acc false None)
      with (parse_items s acc true None).
    unfold digits. rewrite <- digits_go_app.
    apply parse_items_digits, enough_digits.
  - exists false, (Z.abs_N x). split; [unfold signed; lia|].
    unfold digits. rewrite <- digits_go_app.
    apply parse_items_digits, enough_digits.
Qed.

Lemma parse_items_join (a : list Z) :
  ∀ acc : list Z, a ≠ [] →
    parse_items (join_commas (map py_str a) +:+ "]") acc false None
    = Some (acc ++ a).
Proof.
  induction a as [|x a IH]; intros acc Hne; [done|].
  destruct a as [|y a].
  - simpl join_commas.
    destruct (parse_items_py_str x "]" acc) as (neg & v & Hx & ->).
    simpl. by rewrite Hx.
  - change (join_commas (map py_str (x :: y :: a)))
      with (py_str x +:+ "," +:+ join_commas (map py_str (y :: a))).
    rewrite !string_app_assoc.
    destruct (parse_items_py_str x
                ("," +:+ join_commas (map py_str (y :: a)) +:+ "]") acc)
      as (neg & v & Hx & ->).
    rewrite string_app_cons, string_app_nil_l.
    change (parse_items (String "," ?s) acc neg (Some v))
      with (parse_items s (acc ++ [signed neg v]) false None).
    rewrite IH by done. rewrite Hx. by rewrite <- app_assoc.
Qed.

Lemma parse_encoding_bracketed (a : list Z) :
  parse_encoding (bracketed a) = Some a.
Proof.
  unfold bracketed. destruct a as [|x a]; [reflexivity|].
  rewrite string_app_cons, string_app_nil_l.
  change (parse_encoding (String "[" ?s)) with (parse_items s [] false None).
  by rewrite parse_items_join.
Qed.

Lemma max_token_length_below_threshold : (max_token_length ≤ threshold)%nat.
Proof. vm_compute. lia. Qed.

(** C4.  A token row no longer than the model's token length, of 32-bit
    integers, is written as the bracketed, comma-separated list of its values
    on one line and in full, and reading that text back gives the same
    row. *)
Theorem encoding_round_trip (toks : list Z) :
  (length toks ≤ max_token_length)%nat →
  Forall is_int32 toks →
  array2string toks = bracketed toks
  ∧ parse_encoding (array2string toks) = Some toks.
Proof.
  intros Hlen Hint.
  assert (E : array2string toks = bracketed toks).
  { apply array2string_bracketed; [|done].
    pose proof max_token_length_below_threshold. lia. }
  split; [done|]. rewrite E. apply parse_encoding_bracketed.
Qed.

Lemma encoding_round_trip_witness :
  array2string [16383; 0; 7] = bracketed [16383; 0; 7]
  ∧ parse_encoding (array2string [16383; 0; 7]) = Some [16383; 0; 7].
Proof.
  apply (encoding_round_trip [16383; 0; 7]).
  - vm_compute. lia.
  - unfold is_int32. repeat constructor; lia.
Defined.

Example array2string_examples :
  array2string [1; 20; 300] = "[1,20,300]" ∧ array2string [] = "[]"
  ∧ array2string [-7] = "[-7]"
  ∧ array2string (map Z.of_nat (seq 0 1001)) = "[0,1,2,...,998,999,1000]".
Proof. by vm_compute. Qed.

(** ** The batch source *)

Lemma batched_go_spec {A : Type} (bs : nat) (data : list A) :
  ∀ batch : list A,
    (0 < length batch ≤ bs)%nat →
    batches_of bs (batched_go bs batch data)
    ∧ concat (batched_go bs batch data) = batch ++ data.
Proof.
  induction data as [|sample data IH]; intros batch Hb; simpl.
  - destruct (Nat.eqb_spec (length batch) 0); [lia|].
    split; [by constructor|]. simpl. by rewrite app_nil_r.
  - destruct (Nat.leb_spec bs (length batch)).
    + destruct (IH [sample]) as [Hu Hc]; [simpl; lia|].
      split; [constructor; [lia|done]|].
      simpl. by rewrite Hc.
    + destruct (IH (batch ++ [sample])) as [Hu Hc].
      { rewrite length_app. simpl. lia. }
      split; [done|]. rewrite Hc. by rewrite <- app_assoc.
Qed.

Lemma batched_spec {A : Type} (bs : nat) (data : list A) :
  (1 ≤ bs)%nat →
  batches_of bs (batched bs data) ∧ concat (batched bs data) = data.
Proof.
  intros Hbs. unfold batched. destruct data as [|sample data]; simpl.
  - split; [constructor|done].
  - destruct (Nat.leb_spec bs 0); [lia|].
    apply (batched_go_spec bs data [sample]). simpl. lia.
Qed.

Lemma batches_of_lookup {A : Type} (bs : nat) (B : list (list A)) :
  (1 ≤ bs)%nat →
  batches_of bs B →
  ∀ (i : nat) (b : list A), B !! i = Some b →
    b = take bs (drop (i * bs) (concat B))
    ∧ (0 < length b ≤ bs)%nat
    ∧ (S i < length B → length b = bs)%nat.
Proof.
  intros Hbs.
  induction 1 as [|b0 Hb0|b0 rest Hb0 Hrest IH]; intros i b Hi.
  - done.
  - destruct i as [|i]; [|done]. injection Hi as <-.
    simpl. rewrite app_nil_r. split_and!.
    + rewrite drop_0. by rewrite take_ge by lia.
    + lia.
    + lia.
    + simpl. lia.
  - destruct i as [|i].
    + injection Hi as <-. simpl. split_and!.
      * rewrite drop_0. by rewrite take_app_length' by done.
      * lia.
      * lia.
      * done.
    + simpl in Hi. destruct (IH i b Hi) as (Hb & Hlen & Hfull).
      split_and!.
      * simpl. rewrite drop_app_ge by lia.
        rewrite Hb. do 2 f_equal. lia.
      * lia.
      * lia.
      * simpl. intros. apply Hfull. lia.
Qed.

Lemma batches_of_concat_drop {A : Type} (bs : nat) (B : list (list A)) :
  batches_of bs B →
  ∀ j : nat, concat (drop j B) = drop (j * bs) (concat B)
             ∧ batches_of bs (drop j B).
Proof.
  induction 1 as [|b0 Hb0|b0 rest Hb0 Hrest IH]; intros j.
  - simpl. rewrite !drop_nil. split; [done|constructor].
  - destruct j as [|j]; simpl.
    + rewrite drop_0. split; [done|by constructor].
    + rewrite drop_nil. rewrite app_nil_r. simpl.
      split; [|constructor]. rewrite drop_ge; [done|lia].
  - destruct j as [|j]; simpl.
    + rewrite drop_0. split; [done|by constructor].
    + destruct (IH j) as [Hc Hu]. split; [|done].
      rewrite drop_app_ge by lia. rewrite Hc. f_equal. lia.
Qed.

Lemma batches_of_concat_take {A : Type} (bs : nat) (B : list (list A)) :
  batches_of bs B →
  ∀ j : nat, concat (take j B) = take (j * bs) (concat B).
Proof.
  induction 1 as [|b0 Hb0|b0 rest Hb0 Hrest IH]; intros j.
  - simpl. by rewrite !take_nil.
  - destruct j as [|j]; simpl; [done|].
    rewrite take_nil, app_nil_r. simpl. rewrite app_nil_r.
    by rewrite take_ge by lia.
  - destruct j as [|j]; simpl; [done|].
    rewrite IH. rewrite take_app_ge by lia.
    do 2 f_equal. lia.
Qed.

(** Which batch indices exist, in terms of the number of items. *)
Lemma batches_of_index {A : Type} (bs : nat) (B : list (list A)) :
  (1 ≤ bs)%nat →
  batches_of bs B →
  ∀ j : nat, (j < length B ↔ j * bs < length (concat B))%nat.
Proof.
  intros Hbs.
  induction 1 as [|b0 Hb0|b0 rest Hb0 Hrest IH]; intros j; simpl.
  - lia.
  - rewrite app_nil_r. destruct j as [|j]; [lia|]. nia.
  - rewrite length_app. destruct j as [|j]; [lia|].
    specialize (IH j). simpl. lia.
Qed.

(** ** From the loader to the devices *)

Lemma chunks_length {A : Type} (size count : nat) (l : list A) :
  length (chunks size count l) = count.
Proof.
  revert l. induction count as [|count IH]; intros l; simpl; [done|].
  by rewrite IH.
Qed.

Lemma chunks_concat {A : Type} (size count : nat) (l : list A) :
  length l = (size * count)%nat → concat (chunks size count l) = l.
Proof.
  revert l. induction count as [|count IH]; intros l Hlen; simpl.
  - destruct l; [done|]. simpl in Hlen. lia.
  - rewrite IH; [apply take_drop|]. rewrite length_drop. lia.
Qed.

Lemma squeeze_images_batch {Image : Type} (images : list Image) :
  length images ≠ 1%nat → squeeze_images images = Batch images.
Proof. destruct images as [|x [|y images]]; simpl; try done. Qed.

Lemma squeeze_images_single {Image : Type} (images : list Image) :
  length images = 1%nat →
  ∃ image, images = [image] ∧ squeeze_images images = Single image.
Proof.
  destruct images as [|x [|y images]]; simpl; try done.
  intros _. by exists x.
Qed.

Lemma shard_images_blocks {Image : Type} (device_count : nat)
    (images : list Image) :
  (1 ≤ device_count)%nat → length images ≠ 1%nat →
  (length images mod device_count = 0)%nat →
  ∃ blocks,
    shard_images device_count (squeeze_images images) = Ok (Blocks blocks)
    ∧ length blocks = device_count
    ∧ concat blocks = images.
Proof.
  intros Hdc Hne Hmod. rewrite squeeze_images_batch by done.
  unfold shard_images.
  destruct (Nat.eqb_spec device_count 0) as [|_]; [lia|].
  rewrite Hmod. simpl. eexists. split; [reflexivity|].
  split; [apply chunks_length|]. apply chunks_concat.
  pose proof (Nat.div_mod_eq (length images) device_count). lia.
Qed.

Lemma shard_images_refuses {Image : Type} (device_count : nat)
    (images : list Image) :
  length images ≠ 1%nat →
  (length images mod device_count ≠ 0)%nat →
  shard_images device_count (squeeze_images images) = Raise ValueError.
Proof.
  intros Hne Hmod. rewrite squeeze_images_batch by done.
  unfold shard_images.
  destruct (device_count =? 0)%nat; [done|].
  by destruct (Nat.eqb_spec (length images mod device_count) 0).
Qed.

Lemma shard_images_single {Image : Type} (device_count : nat)
    (images : list Image) :
  length images = 1%nat →
  ∀ blocks,
    shard_images device_count (squeeze_images images) ≠ Ok (Blocks blocks).
Proof.
  intros Hlen blocks.
  destruct (squeeze_images_single images Hlen) as (image & _ & ->).
  unfold shard_images.
  destruct (device_count =? 0)%nat; [done|].
  by destruct (max_size mod device_count =? 0)%nat.
Qed.

(** C8, as the code has it.  The data loader cuts the sequence of prepared
    items into consecutive batches of [batch_size * device_count] items:
    batch [i] holds the items from position [i * bs] on, every batch but the
    last holds exactly [bs] of them, and the last one holds what is left,
    at least one item and at most [bs].  Between the loader and the encoder
    stand [squeeze] and [shard]: a batch of a length other than one that is
    a multiple of the number of devices, as every full batch of two or more
    items is, goes to the encoder as one block of images for each device; a
    batch of any other length but one is refused by [shard] with
    [ValueError]; and a batch of one image never reaches the encoder as
    blocks of images. *)
Theorem dataloader_batches {Image : Type} (batch_size device_count : nat)
    (items : list (PreparedItem Image)) :
  (1 ≤ batch_size * device_count)%nat →
  concat (dataloader batch_size device_count items) = items
  ∧ ∀ (i : nat) (b : list (PreparedItem Image)),
      dataloader batch_size device_count items !! i = Some b →
      b = take (batch_size * device_count)
               (drop (i * (batch_size * device_count)) items)
      ∧ (0 < length b ≤ batch_size * device_count)%nat
      ∧ (S i < length (dataloader batch_size device_count items) →
         length b = batch_size * device_count)%nat
      ∧ (length b ≠ 1%nat → (length b mod device_count = 0)%nat →
         ∃ blocks,
           shard_images device_count (squeeze_images (map image b))
           = Ok (Blocks blocks)
           ∧ length blocks = device_count
           ∧ concat blocks = map image b)
      ∧ ((2 ≤ batch_size * device_count)%nat →
         length b = (batch_size * device_count)%nat →
         ∃ blocks,
           shard_images device_count (squeeze_images (map image b))
           = Ok (Blocks blocks)
           ∧ length blocks = device_count
           ∧ concat blocks = map image b)
      ∧ (length b ≠ 1%nat → (length b mod device_count ≠ 0)%nat →
         shard_images device_count (squeeze_images (map image b))
         = Raise ValueError)
      ∧ (length b = 1%nat →
         ∀ blocks,
           shard_images device_count (squeeze_images (map image b))
           ≠ Ok (Blocks blocks)).
Proof.
  intros Hbs. unfold dataloader.
  destruct (batched_spec (batch_size * device_count) items Hbs) as [Hu Hc].
  split; [done|]. intros i b Hi.
  assert (Hdc : (1 ≤ device_count)%nat) by nia.
  destruct (batches_of_lookup _ _ Hbs Hu i b Hi) as (Hb & Hlen & Hfull).
  rewrite Hc in Hb.
  split; [done|]. split; [done|]. split; [done|]. split_and!.
  - intros Hne Hmod. apply shard_images_blocks; rewrite ?length_map; done.
  - intros Htwo Hlenb.
    apply shard_images_blocks; rewrite ?length_map; [done|lia|].
    rewrite Hlenb. apply Nat.Div0.mod_mul.
  - intros Hne Hmod. apply shard_images_refuses; by rewrite length_map.
  - intros Hone. apply shard_images_single. by rewrite length_map.
Qed.

Lemma dataloader_batches_witness :
  (1 ≤ 1 * 2)%nat
  ∧ concat (dataloader 1 2 five_items) = five_items
  ∧ (∃ blocks,
       shard_images 2 (squeeze_images
                         (map image [synthetic_item 0; synthetic_item 1]))
       = Ok (Blocks blocks)
       ∧ length blocks = 2%nat)
  ∧ ∀ blocks,
      shard_images 2 (squeeze_images (map image [synthetic_item 4]))
      ≠ Ok (Blocks blocks).
Proof.
  assert (Hbs : (1 ≤ 1 * 2)%nat) by (simpl; lia).
  destruct (dataloader_batches 1 2 five_items Hbs) as [Hconcat Hbatch].
  split; [exact Hbs|]. split; [exact Hconcat|]. split.
  - destruct (Hbatch 0%nat [synthetic_item 0; synthetic_item 1])
      as (_ & _ & _ & _ & Hfull & _); [reflexivity|].
    destruct Hfull as (blocks & Hs & Hlen & _);
      [simpl; lia|reflexivity|].
    exists blocks. split; [exact Hs|exact Hlen].
  - destruct (Hbatch 2%nat [synthetic_item 4])
      as (_ & _ & _ & _ & _ & _ & Hone); [reflexivity|].
    apply Hone. reflexivity.
Defined.

(** Against C8 as stated: the last batch of five items taken two at a time
    holds one item. *)
Lemma dataloader_short_last_batch :
  map (map key) (dataloader 1 2 five_items)
  = [[of_string "k0"; of_string "k1"]; [of_string "k2"; of_string "k3"];
     [of_string "k4"]]
  ∧ ¬ (∀ b : list (PreparedItem (list Z)),
         b ∈ dataloader 1 2 five_items → length b = (1 * 2)%nat).
Proof.
  split; [by vm_compute|].
  intros Hall. specialize (Hall [synthetic_item 4]).
  assert (Hin : [synthetic_item 4] ∈ dataloader 1 2 five_items).
  { apply list_elem_of_In. right. right. left. reflexivity. }
  specialize (Hall Hin). discriminate.
Qed.

(** ** Arithmetic of the rotation *)

Lemma div_bounds (n se : nat) :
  (1 ≤ se → n / se * se ≤ n < n / se * se + se)%nat.
Proof.
  intros Hse.
  pose proof (Nat.div_mod_eq n se).
  pose proof (Nat.mod_upper_bound n se). nia.
Qed.

Lemma div_le_iff (n se k : nat) : (1 ≤ se → k ≤ n / se ↔ k * se ≤ n)%nat.
Proof. intros Hse. pose proof (div_bounds n se Hse). nia. Qed.

Lemma div_succ_boundary (m se : nat) :
  (1 ≤ se → S m mod se = 0 → S m / se = S (m / se))%nat.
Proof.
  intros Hse Hmod.
  pose proof (Nat.div_mod_eq (S m) se).
  pose proof (div_bounds m se Hse). nia.
Qed.

Lemma div_succ_inside (m se : nat) :
  (1 ≤ se → S m mod se ≠ 0 → S m / se = m / se)%nat.
Proof.
  intros Hse Hmod.
  pose proof (Nat.div_mod_eq (S m) se).
  pose proof (Nat.mod_upper_bound (S m) se).
  pose proof (div_bounds m se Hse). nia.
Qed.

Lemma split_count_lt (se n k : nat) :
  (1 ≤ se → k < split_count se n ↔ k * se < n)%nat.
Proof.
  intros Hse. unfold split_count.
  pose proof (div_bounds (n + se - 1) se Hse). nia.
Qed.

Lemma split_count_succ (se m : nat) :
  (1 ≤ se → split_count se (S m) = S (m / se))%nat.
Proof.
  intros Hse. unfold split_count.
  replace (S m + se - 1)%nat with (m + 1 * se)%nat by lia.
  rewrite Nat.div_add by lia. lia.
Qed.

Lemma split_name_nat_inj (j k : nat) :
  split_name (Z.of_nat j) = split_name (Z.of_nat k) → j = k.
Proof. intros H. apply split_name_inj in H; lia. Qed.

(** ** The writer, one iteration at a time *)

Section LoopFacts.
Context {Image : Type}.
Variable device_count : nat.
Variable encode : sharded Image → list (list Z).
Variable fs0 : gmap string (list record).

Abbreviation batch := (list (PreparedItem Image)).
Abbreviation name := (λ k : nat, split_name (Z.of_nat k)).

Lemma rows_of_length (keys captions : list pystr) (encoding : list string) :
  length keys = length captions → length captions = length encoding →
  length (rows_of keys captions encoding) = length keys.
Proof.
  revert captions encoding.
  induction keys as [|k keys IH]; intros [|c captions] [|e encoding];
    simpl; try done.
  intros. f_equal. apply IH; lia.
Qed.

Lemma rows_of_keys (keys captions : list pystr) (encoding : list string) :
  length keys = length captions → length captions = length encoding →
  map rkey (rows_of keys captions encoding) = keys.
Proof.
  revert captions encoding.
  induction keys as [|k keys IH]; intros [|c captions] [|e encoding];
    simpl; try done.
  intros. f_equal. apply IH; lia.
Qed.

Lemma rows_of_lookup (keys captions : list pystr) (encoding : list string)
    (i : nat) (k c : pystr) (e : string) :
  keys !! i = Some k → captions !! i = Some c → encoding !! i = Some e →
  rows_of keys captions encoding !! i
  = Some {| rkey := k; rcaption := c; rencoding := e |}.
Proof.
  revert keys captions encoding.
  induction i as [|i IH]; intros [|k' keys] [|c' captions] [|e' encoding];
    simpl; try done.
  - by intros [= ->] [= ->] [= ->].
  - apply IH.
Qed.

Lemma encoded_rows_length (b : batch) :
  obeys device_count encode b →
  length (encoded_rows device_count encode b) = length b.
Proof. intros (images & Hs & Hlen). unfold encoded_rows. by rewrite Hs. Qed.

Lemma batch_rows_ok (b : batch) :
  obeys device_count encode b →
  batch_rows device_count encode b = Ok (batch_records device_count encode b).
Proof.
  intros (images & Hs & Hlen).
  unfold batch_rows, from_dict, batch_records, encoded_rows.
  rewrite Hs. simpl bind.
  rewrite !length_map, Hlen, !Nat.eqb_refl. done.
Qed.

Lemma batch_records_length (b : batch) :
  obeys device_count encode b →
  length (batch_records device_count encode b) = length b.
Proof.
  intros Hb. unfold batch_records.
  rewrite rows_of_length; rewrite ?length_map; try done.
  by rewrite encoded_rows_length.
Qed.

Lemma batch_records_keys (b : batch) :
  obeys device_count encode b →
  map rkey (batch_records device_count encode b) = map key b.
Proof.
  intros Hb. unfold batch_records.
  rewrite rows_of_keys; rewrite ?length_map; try done.
  by rewrite encoded_rows_length.
Qed.

Lemma rows_of_serialisable (keys captions : list pystr)
    (encoding : list string) :
  Forall (λ k, encodable k = true) keys →
  Forall (λ c, encodable c = true) captions →
  serialisable (rows_of keys captions encoding) = true.
Proof.
  intros Hk. revert captions encoding.
  induction Hk as [|k keys Hk _ IH]; intros captions encoding Hc; [done|].
  destruct Hc as [|c captions Hc Hcs]; [done|].
  destruct encoding as [|e encoding]; [done|].
  simpl. rewrite Hk, Hc. simpl. by apply IH.
Qed.

Lemma batch_records_serialisable (b : batch) :
  writable b → serialisable (batch_records device_count encode b) = true.
Proof.
  intros Hw. unfold batch_records. apply rows_of_serialisable.
  - apply Forall_fmap. eapply Forall_impl; [exact Hw|]. by intros it [? ?].
  - apply Forall_fmap. eapply Forall_impl; [exact Hw|]. by intros it [? ?].
Qed.

Lemma split_batches_full (se k : nat) (done : list batch) (b : batch) :
  (k * se + se ≤ length done)%nat →
  split_batches se k (done ++ [b]) = split_batches se k done.
Proof.
  intros Hk. unfold split_batches.
  rewrite drop_app_le by lia.
  rewrite take_app_le; [done|]. rewrite length_drop. lia.
Qed.

Lemma split_batches_open (se k : nat) (done : list batch) (b : batch) :
  (k * se ≤ length done < k * se + se)%nat →
  split_batches se k (done ++ [b]) = split_batches se k done ++ [b].
Proof.
  intros Hk. unfold split_batches.
  rewrite drop_app_le by lia.
  rewrite take_app_ge by (rewrite length_drop; lia).
  rewrite (take_ge (drop _ done)) by (rewrite length_drop; lia).
  f_equal. rewrite length_drop.
  destruct (se - (length done - k * se))%nat eqn:E; [lia|].
  simpl. by rewrite take_nil.
Qed.

Lemma split_records_empty (se k : nat) (done : list batch) :
  (length done ≤ k * se)%nat → split_records device_count encode se k done = [].
Proof.
  intros Hk. unfold split_records, split_batches.
  rewrite drop_ge by done. by rewrite take_nil.
Qed.

Lemma rotate_inv (se : nat) (done : list batch) (st : state) :
  (1 ≤ se)%nat →
  writer_inv device_count encode fs0 se done st →
  ∃ st1, rotate (Z.of_nat se) (Z.of_nat (length done)) st = Ok st1
         ∧ rotated_inv device_count encode fs0 se done st1
         ∧ ((length done mod se)%nat ≠ 0%nat → st1 = st)
         ∧ ((length done mod se)%nat = 0%nat →
            st1 = file_open_w (name (length done / se)%nat)
                    match file st with
                    | Some h => file_close h st
                    | None => st
                    end).
Proof.
  intros Hse Hinv. unfold rotate, py_mod, py_floordiv.
  destruct (Z.eqb_spec (Z.of_nat se) 0) as [|_]; [lia|]. simpl bind.
  rewrite <- Nat2Z.inj_mod, <- Nat2Z.inj_div.
  unfold writer_inv in Hinv. unfold rotated_inv.
  destruct (length done) as [|m] eqn:Hlen.
  - (* the first batch *)
    subst st. apply length_zero_iff_nil in Hlen. subst done.
    rewrite Nat.Div0.mod_0_l, Nat.Div0.div_0_l. simpl.
    eexists. split; [reflexivity|]. split; [|split; [done|done]].
    split_and!; try done.
    + intros k Hk. replace k with 0%nat by lia.
      unfold file_open_w. simpl fs. rewrite lookup_insert_eq.
      rewrite split_records_empty; [done|simpl; lia].
    + intros p Hp. unfold file_open_w. simpl fs.
      rewrite lookup_insert_ne; [done|].
      intros E. by apply (Hp 0%nat).
  - destruct Hinv as (Hfile & Hopen & Hlog & Hfs & Hframe).
    destruct (Z.eqb_spec (Z.of_nat (S m mod se)) 0) as [Hz|Hnz].
    + (* a new split starts *)
      assert (Hmod : (S m mod se = 0)%nat) by lia.
      pose proof (div_succ_boundary m se Hse Hmod) as Hq.
      rewrite Hfile. eexists. split; [reflexivity|].
      split; [|split; [lia|done]].
      rewrite Hq. unfold file_open_w, file_close.
      cbn [file fs open_files opened_log].
      rewrite Hopen, Hlog. cbn [remove_first]. rewrite String.eqb_refl.
      split_and!; try done.
      * rewrite (seq_S (S (m / se))). by rewrite map_app.
      * intros k Hk. destruct (decide (k = S (m / se))) as [->|Hne].
        -- rewrite lookup_insert_eq. rewrite split_records_empty; [done|].
           rewrite Hlen. pose proof (Nat.div_mod_eq (S m) se) as Hd.
           rewrite Hmod, Hq in Hd. lia.
        -- rewrite lookup_insert_ne
             by (intros E; apply split_name_nat_inj in E; lia).
           apply Hfs. lia.
      * intros p Hp. rewrite lookup_insert_ne.
        -- apply Hframe. intros k Hk. apply Hp. lia.
        -- intros E. by apply (Hp (S (m / se))).
    + (* the current split goes on *)
      assert (Hmod : (S m mod se ≠ 0)%nat) by lia.
      pose proof (div_succ_inside m se Hse Hmod) as Hq.
      exists st. split; [done|]. split; [|split; [done|lia]].
      rewrite Hq. done.
Qed.

Lemma append_inv (se : nat) (done : list batch) (b : batch) (st1 : state) :
  (1 ≤ se)%nat →
  passes device_count encode b →
  rotated_inv device_count encode fs0 se done st1 →
  ∃ st', append_batch device_count encode b st1 = Ok st'
         ∧ writer_inv device_count encode fs0 se (done ++ [b]) st'.
Proof.
  intros Hse [Hobeys Hwritable] (Hfile & Hopen & Hlog & Hfs & Hframe).
  unfold append_batch. rewrite batch_rows_ok by done. simpl bind.
  unfold to_json. rewrite batch_records_serialisable by done.
  rewrite Hfile, Hopen.
  rewrite bool_decide_eq_true_2 by (apply list_elem_of_In; simpl; auto).
  eexists. split; [reflexivity|].
  unfold writer_inv. rewrite length_app. simpl length.
  rewrite Nat.add_1_r. cbn [file fs open_files opened_log].
  pose proof (div_bounds (length done) se Hse) as Hb.
  split_and!; try done.
  - intros k Hk.
    destruct (decide (k = (length done / se)%nat)) as [->|Hne].
    + rewrite lookup_insert_eq. rewrite Hfs by done. simpl.
      unfold split_records. rewrite split_batches_open by lia.
      rewrite flat_map_app. simpl. by rewrite app_nil_r.
    + rewrite lookup_insert_ne
        by (intros E; apply split_name_nat_inj in E; lia).
      rewrite Hfs by done. unfold split_records.
      rewrite split_batches_full; [done|]. nia.
  - intros p Hp. rewrite lookup_insert_ne; [by apply Hframe|].
    intros E. by apply (Hp (length done / se)%nat).
Qed.

Lemma step_inv (se : nat) (done : list batch) (b : batch) (st : state) :
  (1 ≤ se)%nat →
  passes device_count encode b →
  writer_inv device_count encode fs0 se done st →
  ∃ st', step device_count encode (Z.of_nat se) (Z.of_nat (length done)) b st
         = Ok st'
         ∧ writer_inv device_count encode fs0 se (done ++ [b]) st'.
Proof.
  intros Hse Hb Hinv. unfold step.
  destruct (rotate_inv se done st Hse Hinv) as (st1 & -> & Hrot & _).
  simpl bind. by apply append_inv.
Qed.

Lemma loop_inv (se : nat) (rest : list batch) :
  ∀ (done : list batch) (st : state),
    (1 ≤ se)%nat →
    Forall (passes device_count encode) rest →
    writer_inv device_count encode fs0 se done st →
    ∃ st', loop device_count encode (Z.of_nat se) (Z.of_nat (length done))
             rest st = Ok st'
           ∧ writer_inv device_count encode fs0 se (done ++ rest) st'.
Proof.
  induction rest as [|b rest IH]; intros done st Hse Hall Hinv; simpl.
  - exists st. by rewrite app_nil_r.
  - apply Forall_cons in Hall as [Hb Hall].
    destruct (step_inv se done b st Hse Hb Hinv) as (st' & -> & Hinv').
    simpl bind.
    destruct (IH (done ++ [b]) st' Hse Hall Hinv')
      as (st'' & Hloop & Hinv'').
    exists st''. rewrite <- app_assoc in Hinv''. split; [|done].
    rewrite <- Hloop. f_equal. rewrite length_app. simpl. lia.
Qed.

Lemma run_inv (se : nat) (batches : list batch) :
  (1 ≤ se)%nat →
  Forall (passes device_count encode) batches →
  ∃ st, encode_captioned_dataset device_count encode batches fs0
          (Z.of_nat se) = Ok st
        ∧ writer_inv device_count encode fs0 se batches st.
Proof.
  intros Hse Hall. unfold encode_captioned_dataset.
  apply (loop_inv se batches [] (initial fs0) Hse Hall). reflexivity.
Qed.
End LoopFacts.

(** ** The whole run *)

Section RunFacts.
Context {Image : Type}.
Variable device_count : nat.
Variable encode : sharded Image → list (list Z).
Variable fs0 : gmap string (list record).

Abbreviation batch := (list (PreparedItem Image)).
Abbreviation name := (λ k : nat, split_name (Z.of_nat k)).

Lemma loop_app (se n : Z) (pre post : list batch) :
  ∀ (st : state),
    loop device_count encode se n (pre ++ post) st
    = do st' <- loop device_count encode se n pre st;
      loop device_count encode se (n + Z.of_nat (length pre)) post st'.
Proof.
  revert n. induction pre as [|b pre IH]; intros n st; simpl.
  - by rewrite Z.add_0_r.
  - destruct (step device_count encode se n b st) as [st'|e]; simpl; [|done].
    rewrite IH. do 2 f_equal. lia.
Qed.

(** The directory and the writer after a run, in closed form. *)
Lemma run_closed_form (se : nat) (batches : list batch) :
  (1 ≤ se)%nat →
  Forall (passes device_count encode) batches →
  ∃ st, encode_captioned_dataset device_count encode batches fs0
          (Z.of_nat se) = Ok st
    ∧ (∀ k : nat, (k * se < length batches)%nat →
         fs st !! name k
         = Some (split_records device_count encode se k batches))
    ∧ (∀ p : string,
         (∀ k : nat, (k * se < length batches)%nat → p ≠ name k) →
         fs st !! p = fs0 !! p)
    ∧ opened_log st = map name (seq 0 (split_count se (length batches)))
    ∧ (batches = [] → file st = None ∧ open_files st = [])
    ∧ (batches ≠ [] →
         file st = Some (name ((length batches - 1) / se)%nat)
         ∧ open_files st = [name ((length batches - 1) / se)%nat]).
Proof.
  intros Hse Hall.
  destruct (run_inv device_count encode fs0 se batches Hse Hall)
    as (st & Hrun & Hinv).
  exists st. split; [done|]. unfold writer_inv in Hinv.
  destruct (length batches) as [|m] eqn:Hlen.
  - subst st. apply length_zero_iff_nil in Hlen. subst batches.
    split_and!; try done.
    + intros k Hk. lia.
    + unfold split_count. by rewrite Nat.div_small by lia.
  - destruct Hinv as (Hfile & Hopen & Hlog & Hfs & Hframe).
    assert (Hk : ∀ k, (k * se < S m ↔ k ≤ m / se)%nat).
    { intros k. rewrite (div_le_iff m se k Hse). lia. }
    replace (S m - 1)%nat with m by lia.
    split; [|split; [|split; [|split]]].
    + intros k Hlt. apply Hfs. by apply Hk.
    + intros p Hp. apply Hframe. intros k Hle. apply Hp. by apply Hk.
    + by rewrite split_count_succ.
    + intros E. subst batches. discriminate.
    + done.
Qed.

Lemma take_add_split {A : Type} (a b : nat) (l : list A) :
  take (a + b) l = take a l ++ take b (drop a l).
Proof.
  revert l. induction a as [|a IH]; intros [|x l]; simpl; try done.
  - by rewrite take_nil.
  - by rewrite IH.
Qed.

(** Read in the order of their indices, the splits hold the records of
    the batches in the order of the batches. *)
Lemma split_records_concat (se : nat) (batches : list batch) (m : nat) :
  ∀ j : nat,
    flat_map (λ k, split_records device_count encode se k batches) (seq j m)
    = flat_map (batch_records device_count encode)
               (take (m * se) (drop (j * se) batches)).
Proof.
  induction m as [|m IH]; intros j; simpl; [done|].
  rewrite IH. unfold split_records at 1, split_batches.
  rewrite <- flat_map_app. f_equal.
  rewrite take_add_split. f_equal. f_equal.
  rewrite drop_drop. f_equal. lia.
Qed.

Lemma split_records_all (se : nat) (batches : list batch) :
  (1 ≤ se)%nat →
  flat_map (λ k, split_records device_count encode se k batches)
           (seq 0 (split_count se (length batches)))
  = flat_map (batch_records device_count encode) batches.
Proof.
  intros Hse. rewrite split_records_concat. simpl. rewrite drop_0.
  rewrite take_ge; [done|].
  destruct (decide (split_count se (length batches) * se
                    < length batches)%nat) as [Hlt|]; [|lia].
  apply split_count_lt in Hlt; [lia|done].
Qed.

Lemma split_names_distinct (m : nat) : NoDup (map name (seq 0 m)).
Proof.
  change (map name (seq 0 m)) with (name <$> seq 0 m).
  apply NoDup_fmap_2; [|apply NoDup_seq].
  intros j k. apply split_name_nat_inj.
Qed.

Lemma batch_records_lookup (b : batch) (i : nat) (item : PreparedItem Image) :
  obeys device_count encode b →
  b !! i = Some item →
  ∃ toks : list Z,
    encoded_rows device_count encode b !! i = Some toks
    ∧ batch_records device_count encode b !! i
      = Some {| rkey := key item; rcaption := caption item;
                rencoding := array2string toks |}.
Proof.
  intros Hobeys Hi.
  assert (Hlt : (i < length (encoded_rows device_count encode b))%nat).
  { rewrite encoded_rows_length by done. by eapply lookup_lt_Some. }
  destruct (lookup_lt_is_Some_2 _ _ Hlt) as [toks Htoks].
  exists toks. split; [done|]. unfold batch_records.
  apply rows_of_lookup.
  - change (map key b) with (key <$> b). by rewrite list_lookup_fmap, Hi.
  - change (map caption b) with (caption <$> b).
    by rewrite list_lookup_fmap, Hi.
  - change (map array2string ?l) with (array2string <$> l).
    by rewrite list_lookup_fmap, Htoks.
Qed.

Lemma flat_map_keys (X : list batch) :
  Forall (obeys device_count encode) X →
  map rkey (flat_map (batch_records device_count encode) X)
  = map key (concat X).
Proof.
  induction 1 as [|b X Hb _ IH]; simpl; [done|].
  by rewrite !map_app, IH, batch_records_keys.
Qed.

Lemma passes_obeys (X : list batch) :
  Forall (passes device_count encode) X →
  Forall (obeys device_count encode) X.
Proof. intros H. eapply Forall_impl; [exact H|]. by intros b [? ?]. Qed.

(** The state the loop is in when batch [n] arrives, and the run cut at
    that iteration. *)
Lemma iteration (se : nat) (batches : list batch) (n : nat) (b : batch) :
  (1 ≤ se)%nat →
  batches !! n = Some b →
  Forall (passes device_count encode) (take n batches) →
  ∃ st_n st1,
    loop device_count encode (Z.of_nat se) 0 (take n batches) (initial fs0)
    = Ok st_n
    ∧ writer_inv device_count encode fs0 se (take n batches) st_n
    ∧ rotate (Z.of_nat se) (Z.of_nat n) st_n = Ok st1
    ∧ rotated_inv device_count encode fs0 se (take n batches) st1
    ∧ ((n mod se)%nat ≠ 0%nat → st1 = st_n)
    ∧ ((n mod se)%nat = 0%nat →
       st1 = file_open_w (name (n / se)%nat)
               match file st_n with
               | Some h => file_close h st_n
               | None => st_n
               end)
    ∧ encode_captioned_dataset device_count encode batches fs0 (Z.of_nat se)
      = do st2 <- append_batch device_count encode b st1;
        loop device_count encode (Z.of_nat se) (Z.of_nat n + 1)
             (drop (S n) batches) st2.
Proof.
  intros Hse Hb Hall.
  assert (Hn : length (take n batches) = n).
  { rewrite length_take. apply lookup_lt_Some in Hb. lia. }
  destruct (run_inv device_count encode fs0 se (take n batches) Hse Hall)
    as (st_n & Hrun & Hinv).
  destruct (rotate_inv device_count encode fs0 se _ st_n Hse Hinv)
    as (st1 & Hrot & Hrinv & Hsame & Hnew).
  rewrite Hn in Hrot, Hsame, Hnew.
  exists st_n, st1. split_and!; try done.
  unfold encode_captioned_dataset in *.
  rewrite <- (take_drop_middle batches n b Hb) at 1.
  rewrite loop_app, Hrun. simpl. rewrite Hn, Z.add_0_l.
  unfold step. rewrite Hrot. simpl. done.
Qed.
End RunFacts.

(** ** The claims about the split writer *)

Lemma flat_map_agree {A B : Type} (f g : A → list B) (l : list A) :
  (∀ a, In a l → f a = g a) → flat_map f l = flat_map g l.
Proof.
  induction l as [|a l IH]; intros H; simpl; [done|].
  rewrite (H a) by (by left). rewrite IH; [done|].
  intros a' Ha'. apply H. by right.
Qed.

Section Claims.
Context {Image : Type}.
Variable device_count : nat.
Variable encode : sharded Image → list (list Z).
Variable fs0 : gmap string (list record).

Abbreviation batch := (list (PreparedItem Image)).
Abbreviation name := (λ k : nat, split_name (Z.of_nat k)).

(** C1.  In a run in which every batch passes [shard] and comes back from
    the encoder with one token row per image (and no key or caption holds a
    lone surrogate), the run ends normally; every split [k] it made holds
    the records of its batches, batch after batch and item after item; the
    splits have different names; read in the order of their indices they
    hold the records of all batches in the order of the batches, nothing
    twice and nothing missing; the record at position [i] of a batch carries
    the key and the caption of the item at position [i] and the text that
    [array2string] makes of its token row, which for a row of at most 1000
    32-bit tokens is the bracketed comma-separated list of the tokens in
    decimal and parses back to them; and no file but the splits is
    written. *)
Theorem items_written_once_in_order (se : nat) (batches : list batch) :
  (1 ≤ se)%nat →
  Forall (passes device_count encode) batches →
  ∃ st, encode_captioned_dataset device_count encode batches fs0
          (Z.of_nat se) = Ok st
    ∧ (∀ k : nat, (k < split_count se (length batches))%nat →
         fs st !! split_name (Z.of_nat k)
         = Some (split_records device_count encode se k batches))
    ∧ NoDup (map (λ k, split_name (Z.of_nat k))
                 (seq 0 (split_count se (length batches))))
    ∧ flat_map (λ k, default [] (fs st !! split_name (Z.of_nat k)))
               (seq 0 (split_count se (length batches)))
      = flat_map (batch_records device_count encode) batches
    ∧ (∀ (b : batch) (i : nat) (item : PreparedItem Image),
         In b batches → b !! i = Some item →
         ∃ toks : list Z,
           encoded_rows device_count encode b !! i = Some toks
           ∧ batch_records device_count encode b !! i
             = Some {| rkey := key item; rcaption := caption item;
                       rencoding := array2string toks |}
           ∧ ((length toks ≤ threshold)%nat → Forall is_int32 toks →
              array2string toks = bracketed toks
              ∧ parse_encoding (array2string toks) = Some toks))
    ∧ (∀ b : batch, In b batches →
         length (batch_records device_count encode b) = length b)
  ∧ (∀ p : string,
       (∀ k : nat, (k < split_count se (length batches))%nat →
          p ≠ split_name (Z.of_nat k)) →
       fs st !! p = fs0 !! p).
Proof.
  intros Hse Hall.
  destruct (run_closed_form device_count encode fs0 se batches Hse Hall)
    as (st & Hrun & Hfs & Hframe & _).
  assert (Hfiles : ∀ k : nat, (k < split_count se (length batches))%nat →
            fs st !! name k
            = Some (split_records device_count encode se k batches)).
  { intros k Hk. apply Hfs. by apply split_count_lt in Hk. }
  assert (Hobeys : ∀ b, In b batches → obeys device_count encode b).
  { intros b Hb. rewrite Forall_forall in Hall.
    apply list_elem_of_In in Hb. by destruct (Hall b Hb). }
  exists st. split_and!; try done.
  - apply split_names_distinct.
  - rewrite <- (split_records_all device_count encode se batches Hse).
    apply flat_map_agree. intros k Hk. apply in_seq in Hk.
    rewrite Hfiles by lia. done.
  - intros b i item Hb Hi.
    destruct (batch_records_lookup device_count encode b i item
                (Hobeys b Hb) Hi) as (toks & Htoks & Hrec).
    exists toks. split_and!; try done.
    intros Hlen Hint. rewrite array2string_bracketed by done.
    split; [done|]. apply parse_encoding_bracketed.
  - intros b Hb. by apply batch_records_length, Hobeys.
  - intros p Hp. apply Hframe. intros k Hk. apply Hp.
    by apply split_count_lt.
Qed.

(** C2.  In a run in which every batch passes [shard], comes back
    from the encoder with one token row per image and has keys and captions
    without lone surrogates: when batch [n] arrives the rotation rule is applied once: for
    [n mod save_every = 0] the writer closes the file it holds (if it holds
    one) and opens the file of split [n div save_every], otherwise it
    changes nothing; either way the open file is then the one of split
    [n div save_every], the run goes on from that state with the append of
    batch [n], and at the end of the run that file holds the records of
    batch [n], as batch number [n mod save_every] of the split. *)
Theorem rotation_rule (se : nat) (batches : list batch) (n : nat)
    (b : batch) :
  (1 ≤ se)%nat →
  Forall (passes device_count encode) batches →
  batches !! n = Some b →
  ∃ st_n st1 st,
    loop device_count encode (Z.of_nat se) 0 (take n batches) (initial fs0)
    = Ok st_n
    ∧ rotate (Z.of_nat se) (Z.of_nat n) st_n = Ok st1
    ∧ ((n mod se)%nat ≠ 0%nat → st1 = st_n)
    ∧ ((n mod se)%nat = 0%nat →
       st1 = file_open_w (split_name (Z.of_nat (n / se)))
               match file st_n with
               | Some h => file_close h st_n
               | None => st_n
               end)
    ∧ file st1 = Some (split_name (Z.of_nat (n / se)))
    ∧ open_files st1 = [split_name (Z.of_nat (n / se))]
    ∧ encode_captioned_dataset device_count encode batches fs0 (Z.of_nat se)
      = (do st2 <- append_batch device_count encode b st1;
         loop device_count encode (Z.of_nat se) (Z.of_nat n + 1)
              (drop (S n) batches) st2)
    ∧ encode_captioned_dataset device_count encode batches fs0 (Z.of_nat se)
      = Ok st
    ∧ fs st !! split_name (Z.of_nat (n / se))
      = Some (split_records device_count encode se (n / se) batches)
    ∧ split_batches se (n / se) batches !! (n mod se)%nat = Some b.
Proof.
  intros Hse Hall Hb.
  destruct (iteration device_count encode fs0 se batches n b Hse Hb
              (Forall_take _ n _ Hall))
    as (st_n & st1 & Hpre & _ & Hrot & Hrinv & Hsame & Hnew & Hcut).
  destruct (run_closed_form device_count encode fs0 se batches Hse Hall)
    as (st & Hrun & Hfs & _).
  assert (Hn : length (take n batches) = n).
  { rewrite length_take. apply lookup_lt_Some in Hb. lia. }
  destruct Hrinv as (Hfile & Hopen & _). rewrite Hn in Hfile, Hopen.
  pose proof (div_bounds n se Hse) as Hq.
  pose proof (Nat.div_mod_eq n se) as Hd.
  pose proof (Nat.mod_upper_bound n se) as Hr.
  exists st_n, st1, st. split_and!; try done.
  - apply Hfs. apply lookup_lt_Some in Hb. lia.
  - unfold split_batches. rewrite lookup_take_lt by lia.
    rewrite lookup_drop. rewrite <- Hb. f_equal. lia.
Qed.

(** C9.  Opening a split empties the file of that name.  In a run in
    which every batch passes [shard], comes back from the encoder with one
    token row per image and has keys and captions without lone surrogates,
    whatever the
    output directory held before the run, the run opens the splits
    [0, 1, 2, ...] once each, every one of them ends up holding the records
    written in this run and nothing else, files it did not open are left as
    they were, and the opened files together hold every record of the
    run. *)
Theorem open_truncates_and_never_reopens (se : nat) (batches : list batch) :
  (1 ≤ se)%nat →
  Forall (passes device_count encode) batches →
  (∀ (p : string) (st' : state), fs (file_open_w p st') !! p = Some [])
  ∧ ∃ st, encode_captioned_dataset device_count encode batches fs0
            (Z.of_nat se) = Ok st
      ∧ opened_log st
        = map (λ k, split_name (Z.of_nat k))
              (seq 0 (split_count se (length batches)))
      ∧ NoDup (opened_log st)
      ∧ (∀ k : nat, (k < split_count se (length batches))%nat →
           fs st !! split_name (Z.of_nat k)
           = Some (split_records device_count encode se k batches))
      ∧ (∀ p : string, p ∉ opened_log st → fs st !! p = fs0 !! p)
      ∧ flat_map (λ p, default [] (fs st !! p)) (opened_log st)
        = flat_map (batch_records device_count encode) batches.
Proof.
  intros Hse Hall. split.
  { intros p st'. unfold file_open_w. simpl. apply lookup_insert_eq. }
  destruct (run_closed_form device_count encode fs0 se batches Hse Hall)
    as (st & Hrun & Hfs & Hframe & Hlog & _).
  assert (Hfiles : ∀ k : nat, (k < split_count se (length batches))%nat →
            fs st !! name k
            = Some (split_records device_count encode se k batches)).
  { intros k Hk. apply Hfs. by apply split_count_lt in Hk. }
  exists st. split_and!; try done.
  - rewrite Hlog. apply split_names_distinct.
  - intros p Hp. apply Hframe. intros k Hk ->. apply Hp.
    rewrite Hlog. apply list_elem_of_In, in_map_iff. exists k.
    split; [done|]. apply in_seq. apply split_count_lt in Hk; [lia|done].
  - rewrite Hlog. rewrite flat_map_concat_map, map_map.
    rewrite <- flat_map_concat_map.
    rewrite <- (split_records_all device_count encode se batches Hse).
    apply flat_map_agree. intros k Hk. apply in_seq in Hk.
    rewrite Hfiles by lia. done.
Qed.

(** C10.  With [save_every >= 1], in a run in which every batch passes
    [shard], comes back from the encoder with one token row per image and
    has keys and captions without lone surrogates, whichever batch arrives, the rotation
    that precedes the append leaves a file in [file], and that file is
    open: the first batch opens split 0, so the append never meets [None],
    and it puts the records of the batch at the end of that file.
    With [save_every = 0] the first batch already fails on the modulo. *)
Theorem append_on_open_file (se : nat) (batches : list batch) (n : nat)
    (b : batch) :
  (1 ≤ se)%nat →
  Forall (passes device_count encode) batches →
  batches !! n = Some b →
  (∃ st_n st1 h,
     loop device_count encode (Z.of_nat se) 0 (take n batches) (initial fs0)
     = Ok st_n
     ∧ rotate (Z.of_nat se) (Z.of_nat n) st_n = Ok st1
     ∧ file st1 = Some h
     ∧ h ∈ open_files st1
     ∧ (n = 0%nat → file st_n = None ∧ h = split_name 0)
     ∧ (∃ st2, append_batch device_count encode b st1 = Ok st2
          ∧ fs st2 !! h
            = Some (default [] (fs st1 !! h)
                    ++ batch_records device_count encode b))
     ∧ encode_captioned_dataset device_count encode batches fs0 (Z.of_nat se)
       = do st2 <- append_batch device_count encode b st1;
         loop device_count encode (Z.of_nat se) (Z.of_nat n + 1)
              (drop (S n) batches) st2)
  ∧ encode_captioned_dataset device_count encode batches fs0 0
    = Raise ZeroDivisionError.
Proof.
  intros Hse Hall Hb.
  assert (Hpass : passes device_count encode b).
  { rewrite Forall_forall in Hall. apply Hall.
    by eapply list_elem_of_lookup_2. }
  destruct Hpass as [Hobeys Hwritable]. split.
  - destruct (iteration device_count encode fs0 se batches n b Hse Hb
                (Forall_take _ n _ Hall))
      as (st_n & st1 & Hpre & Hinv & Hrot & Hrinv & _ & _ & Hcut).
    destruct Hrinv as (Hfile & Hopen & _).
    exists st_n, st1, (split_name (Z.of_nat (length (take n batches) / se))).
    split_and!; try done.
    + rewrite Hopen. apply list_elem_of_In. simpl. auto.
    + intros ->. rewrite take_0 in *. simpl in Hpre.
      injection Hpre as <-. split; [done|].
      simpl. by rewrite Nat.Div0.div_0_l.
    + unfold append_batch. rewrite batch_rows_ok by done.
      simpl bind. unfold to_json.
      rewrite batch_records_serialisable by done. rewrite Hfile, Hopen.
      rewrite bool_decide_eq_true_2 by (apply list_elem_of_In; simpl; auto).
      eexists. split; [reflexivity|]. simpl. apply lookup_insert_eq.
  - destruct batches as [|b0 batches']; [done|]. reflexivity.
Qed.
End Claims.

Section Counts.
Context {Image : Type}.
Variable device_count : nat.
Variable encode : sharded Image → list (list Z).
Variable fs0 : gmap string (list record).

(** C5.  With batches of [batch_size * device_count] items, all of which
    (the short last one too, when there is one) pass [shard] and come back
    from the encoder with one token row per image, a split takes
    [save_every] batches: split [k] exists exactly when the items reach
    position [k * per_file], it holds the records of the items from that
    position on, in order, [per_file] of them when that many are left and
    otherwise the remainder; no other file is made. *)
Theorem split_file_record_counts (batch_size se : nat)
    (items : list (PreparedItem Image)) :
  (1 ≤ batch_size * device_count)%nat →
  (1 ≤ se)%nat →
  Forall (passes device_count encode)
         (dataloader batch_size device_count items) →
  let per_file := (se * (batch_size * device_count))%nat in
  ∃ st,
    encode_captioned_dataset device_count encode
      (dataloader batch_size device_count items) fs0 (Z.of_nat se) = Ok st
    ∧ (∀ k : nat, (k * per_file < length items)%nat →
         ∃ recs : list record,
           fs st !! split_name (Z.of_nat k) = Some recs
           ∧ map rkey recs
             = map key (take per_file (drop (k * per_file) items))
           ∧ ((S k * per_file ≤ length items)%nat →
              length recs = per_file)
           ∧ ((length items < S k * per_file)%nat →
              length recs = (length items - k * per_file)%nat))
    ∧ (∀ p : string,
         (∀ k : nat, (k * per_file < length items)%nat →
            p ≠ split_name (Z.of_nat k)) →
         fs st !! p = fs0 !! p).
Proof.
  intros Hbs Hse Hall per_file. unfold dataloader in *.
  set (bs := (batch_size * device_count)%nat) in *.
  destruct (batched_spec bs items Hbs) as [Hu Hc].
  destruct (run_closed_form device_count encode fs0 se (batched bs items)
              Hse Hall)
    as (st & Hrun & Hfs & Hframe & _).
  assert (Hidx : ∀ k : nat,
            (k * per_file < length items ↔ k * se < length (batched bs items))%nat).
  { intros k. rewrite (batches_of_index bs _ Hbs Hu (k * se)), Hc.
    unfold per_file. nia. }
  exists st. split; [done|]. split.
  - intros k Hk. exists (split_records device_count encode se k (batched bs items)).
    split; [by apply Hfs, Hidx|].
    assert (Hkeys : map rkey (split_records device_count encode se k (batched bs items))
                    = map key (take per_file (drop (k * per_file) items))).
    { unfold split_records, split_batches.
      rewrite (flat_map_keys device_count encode)
        by (apply passes_obeys; by apply Forall_take, Forall_drop).
      destruct (batches_of_concat_drop bs _ Hu (k * se)) as [Hcd Hud].
      rewrite (batches_of_concat_take bs _ Hud se), Hcd, Hc.
      unfold per_file. do 3 f_equal. lia. }
    split; [done|].
    assert (Hlen : length (split_records device_count encode se k (batched bs items))
                   = (per_file `min` (length items - k * per_file))%nat).
    { rewrite <- (length_map rkey), Hkeys.
      by rewrite length_map, length_take, length_drop. }
    split; intros; rewrite Hlen; lia.
  - intros p Hp. apply Hframe. intros k Hk. by apply Hp, Hidx.
Qed.
End Counts.

(** ** Concrete runs *)

(** Checks that every batch of a literal list of batches passes, by
    evaluation. *)
Ltac passes_by_evaluation :=
  repeat (apply Forall_cons_2;
          [ split;
            [ eexists; split; reflexivity
            | repeat (apply Forall_cons_2; [split; reflexivity|]);
              apply Forall_nil_2 ]
          | ]);
  apply Forall_nil_2.

Lemma five_items_pass :
  Forall (passes 1 stub_encode) (dataloader 1 1 five_items).
Proof. passes_by_evaluation. Defined.

Lemma six_items_pass :
  Forall (passes 2 stub_encode) (dataloader 1 2 six_items).
Proof. passes_by_evaluation. Defined.

Lemma one_item_passes : passes 1 stub_encode [synthetic_item 0].
Proof.
  split; [eexists; split; reflexivity|].
  apply Forall_cons_2; [split; reflexivity|apply Forall_nil_2].
Defined.

Example five_items_run :
  ∃ st,
    encode_captioned_dataset 1 stub_encode (dataloader 1 1 five_items) ∅ 2
    = Ok st
    ∧ size (fs st) = 3%nat
    ∧ (λ p, length <$> fs st !! p)
        <$> ["split_00000.jsonl"; "split_00001.jsonl"; "split_00002.jsonl"]
      = [Some 2%nat; Some 2%nat; Some 1%nat]
    ∧ flat_map (λ p, map rkey (default [] (fs st !! p)))
        ["split_00000.jsonl"; "split_00001.jsonl"; "split_00002.jsonl"]
      = map key five_items
    ∧ NoDup (map key five_items).
Proof.
  eexists. split; [by vm_compute|]. split_and!; try by vm_compute.
  apply (bool_decide_unpack _). by vm_compute.
Qed.

(** C6, evaluated.  After a run over one batch the loop returns with
    [split_00000.jsonl] still in [file] and still open: nothing closes the
    last split. *)
Theorem last_split_left_open :
  ∃ st,
    encode_captioned_dataset 1 stub_encode [[synthetic_item 0]] ∅ 1 = Ok st
    ∧ file st = Some "split_00000.jsonl"
    ∧ open_files st = ["split_00000.jsonl"].
Proof. eexists. split; [by vm_compute|]. by vm_compute. Qed.

(** Against C7 as stated: the split with index [16 ^ 5] gets six digits, and
    a run of [16 ^ 5 + 1] batches with [save_every = 1] makes it. *)
Lemma split_name_six_digits :
  (∃ st,
     encode_captioned_dataset 1 stub_encode
       (repeat [synthetic_item 0] (N.to_nat 1048577)) ∅ 1 = Ok st
     ∧ file st = Some (split_name 1048576))
  ∧ split_name 1048576 = "split_100000.jsonl"
  ∧ ¬ ∃ d : string,
        String.length d = 5%nat
        ∧ split_name 1048576 = "split_" +:+ d +:+ ".jsonl".
Proof.
  split; [|split].
  - assert (Hse : (1 ≤ 1)%nat) by lia.
    assert (Hall : Forall (passes 1 stub_encode)
                     (repeat [synthetic_item 0] (N.to_nat 1048577))).
    { apply Forall_forall. intros b Hb.
      apply list_elem_of_In, repeat_spec in Hb. subst b.
      exact one_item_passes. }
    destruct (run_closed_form 1 stub_encode ∅ 1
                (repeat [synthetic_item 0] (N.to_nat 1048577)) Hse Hall)
      as (st & Hrun & _ & _ & _ & _ & Hlast).
    exists st. split; [exact Hrun|].
    assert (Hne : repeat [synthetic_item 0] (N.to_nat 1048577) ≠ []).
    { intros E. apply (f_equal length) in E.
      rewrite repeat_length in E. simpl in E. lia. }
    destruct (Hlast Hne) as [Hfile _].
    rewrite Hfile, repeat_length, Nat.div_1_r.
    replace (Z.of_nat (N.to_nat 1048577 - 1)) with 1048576 by lia.
    reflexivity.
  - by vm_compute.
  - intros (d & Hlen & Hname).
    destruct d as [|c1 [|c2 [|c3 [|c4 [|c5 [|c6 d]]]]]]; try discriminate Hlen.
    vm_compute in Hname. discriminate Hname.
Qed.

(** Against C1 as stated: on two devices, five items in batches of two
    leave a last batch of one image.  [squeeze] takes its batch axis away,
    [shard] hands the image to the encoder in two bands, the encoder
    returns a row for each band, and the run stops with [ValueError] on the
    two rows for one key: the item went through the encoder and is in no
    record. *)
Lemma encoded_item_not_written :
  dataloader 1 2 five_items !! 2%nat = Some [synthetic_item 4]
  ∧ shard_images 2 (squeeze_images (map image [synthetic_item 4]))
    = Ok (Pieces (image (synthetic_item 4)) 2 128)
  ∧ length (encoded_rows 2 stub_encode [synthetic_item 4]) = 2%nat
  ∧ encode_captioned_dataset 2 stub_encode (dataloader 1 2 five_items) ∅ 2
    = Raise ValueError
  ∧ ¬ obeys 2 stub_encode [synthetic_item 4].
Proof.
  split_and!; try by vm_compute.
  intros (images & Hs & Hlen). vm_compute in Hs. injection Hs as <-.
  vm_compute in Hlen. discriminate Hlen.
Qed.

(** Against C5 as stated: with [batch_size = 1] on two devices and
    [save_every = 2], five items make the batches of two, two and one item.
    The first two fill split 0; the third batch opens split 1 and then fails
    in the encoding step, so the last file does not hold the remainder: it
    is empty when the run stops with [ValueError]. *)
Lemma remainder_not_written :
  map length (dataloader 1 2 five_items) = [2; 2; 1]%nat
  ∧ encode_captioned_dataset 2 stub_encode (dataloader 1 2 five_items) ∅ 2
    = Raise ValueError
  ∧ ∃ st2 st3,
      loop 2 stub_encode 2 0 (take 2 (dataloader 1 2 five_items)) (initial ∅)
      = Ok st2
      ∧ length <$> fs st2 !! "split_00000.jsonl" = Some 4%nat
      ∧ rotate 2 2 st2 = Ok st3
      ∧ fs st3 !! "split_00001.jsonl" = Some []
      ∧ append_batch 2 stub_encode [synthetic_item 4] st3 = Raise ValueError.
Proof.
  split; [by vm_compute|]. split; [by vm_compute|].
  eexists. eexists. split; [by vm_compute|]. split; [by vm_compute|].
  split; [by vm_compute|]. split; by vm_compute.
Qed.

(** ** The theorems at concrete inputs *)

Lemma items_written_once_in_order_witness :
  (1 ≤ 2)%nat
  ∧ Forall (passes 2 stub_encode) (dataloader 1 2 six_items)
  ∧ ∃ st,
      encode_captioned_dataset 2 stub_encode (dataloader 1 2 six_items) ∅
        (Z.of_nat 2) = Ok st
      ∧ flat_map (λ k, default [] (fs st !! split_name (Z.of_nat k)))
          (seq 0 (split_count 2 (length (dataloader 1 2 six_items))))
        = flat_map (batch_records 2 stub_encode) (dataloader 1 2 six_items).
Proof.
  assert (Hse : (1 ≤ 2)%nat) by lia.
  split; [exact Hse|]. split; [exact six_items_pass|].
  destruct (items_written_once_in_order 2 stub_encode ∅ 2
              (dataloader 1 2 six_items) Hse six_items_pass)
    as (st & Hrun & _ & _ & Hall & _).
  exists st. split; [exact Hrun|exact Hall].
Defined.

Lemma rotation_rule_witness :
  (1 ≤ 2)%nat
  ∧ Forall (passes 1 stub_encode) (dataloader 1 1 five_items)
  ∧ dataloader 1 1 five_items !! 4%nat = Some [synthetic_item 4]
  ∧ ∃ st1 st,
      file st1 = Some (split_name (Z.of_nat (4 / 2)))
      ∧ encode_captioned_dataset 1 stub_encode (dataloader 1 1 five_items) ∅
          (Z.of_nat 2) = Ok st
      ∧ fs st !! split_name (Z.of_nat (4 / 2))
        = Some (split_records 1 stub_encode 2 (4 / 2)
                  (dataloader 1 1 five_items)).
Proof.
  assert (Hse : (1 ≤ 2)%nat) by lia.
  assert (Hb : dataloader 1 1 five_items !! 4%nat = Some [synthetic_item 4])
    by reflexivity.
  split; [exact Hse|]. split; [exact five_items_pass|]. split; [exact Hb|].
  destruct (rotation_rule 1 stub_encode ∅ 2
              (dataloader 1 1 five_items) 4 [synthetic_item 4] Hse
              five_items_pass Hb)
    as (st_n & st1 & st & _ & _ & _ & _ & Hfile & _ & _ & Hrun & Hfs & _).
  exists st1, st. split; [exact Hfile|]. split; [exact Hrun|exact Hfs].
Defined.

Lemma split_file_record_counts_witness :
  (1 ≤ 1 * 2)%nat
  ∧ (1 ≤ 2)%nat
  ∧ Forall (passes 2 stub_encode) (dataloader 1 2 six_items)
  ∧ ∃ st recs,
      encode_captioned_dataset 2 stub_encode (dataloader 1 2 six_items) ∅
        (Z.of_nat 2) = Ok st
      ∧ fs st !! split_name (Z.of_nat 1) = Some recs
      ∧ length recs = 2%nat.
Proof.
  assert (Hbs : (1 ≤ 1 * 2)%nat) by (simpl; lia).
  assert (Hse : (1 ≤ 2)%nat) by lia.
  split; [exact Hbs|]. split; [exact Hse|]. split; [exact six_items_pass|].
  destruct (split_file_record_counts 2 stub_encode ∅ 1 2
              six_items Hbs Hse six_items_pass)
    as (st & Hrun & Hfiles & _).
  destruct (Hfiles 1%nat) as (recs & Hfs & _ & _ & Hrest); [simpl; lia|].
  exists st, recs. split; [exact Hrun|]. split; [exact Hfs|].
  apply Hrest. simpl. lia.
Defined.

Lemma open_truncates_and_never_reopens_witness :
  (1 ≤ 2)%nat
  ∧ Forall (passes 1 stub_encode) (dataloader 1 1 five_items)
  ∧ ∃ st,
      encode_captioned_dataset 1 stub_encode (dataloader 1 1 five_items)
        {[ "split_00000.jsonl" := [stale_record] ]} (Z.of_nat 2) = Ok st
      ∧ fs st !! split_name (Z.of_nat 0)
        = Some (split_records 1 stub_encode 2 0 (dataloader 1 1 five_items))
      ∧ NoDup (opened_log st).
Proof.
  assert (Hse : (1 ≤ 2)%nat) by lia.
  split; [exact Hse|]. split; [exact five_items_pass|].
  destruct (open_truncates_and_never_reopens 1 stub_encode
              {[ "split_00000.jsonl" := [stale_record] ]} 2
              (dataloader 1 1 five_items) Hse five_items_pass)
    as (_ & st & Hrun & _ & Hnodup & Hfiles & _).
  exists st. split; [exact Hrun|]. split; [|exact Hnodup].
  apply Hfiles. vm_compute. lia.
Defined.

Lemma append_on_open_file_witness :
  (1 ≤ 2)%nat
  ∧ Forall (passes 1 stub_encode) (dataloader 1 1 five_items)
  ∧ dataloader 1 1 five_items !! 0%nat = Some [synthetic_item 0]
  ∧ (∃ st1 h,
       rotate (Z.of_nat 2) (Z.of_nat 0) (initial ∅) = Ok st1
       ∧ file st1 = Some h ∧ h ∈ open_files st1)
  ∧ encode_captioned_dataset 1 stub_encode (dataloader 1 1 five_items) ∅ 0
    = Raise ZeroDivisionError.
Proof.
  assert (Hse : (1 ≤ 2)%nat) by lia.
  assert (Hb : dataloader 1 1 five_items !! 0%nat = Some [synthetic_item 0])
    by reflexivity.
  split; [exact Hse|]. split; [exact five_items_pass|]. split; [exact Hb|].
  destruct (append_on_open_file 1 stub_encode ∅ 2
              (dataloader 1 1 five_items) 0 [synthetic_item 0] Hse
              five_items_pass Hb)
    as ((st_n & st1 & h & Hpre & Hrot & Hfile & Hopen & _) & Hzero).
  split; [|exact Hzero].
  exists st1, h. simpl in Hpre. injection Hpre as <-.
  split; [exact Hrot|]. split; [exact Hfile|exact Hopen].
Defined.

(** The files of the run over five single-item batches with
    [save_every = 2], and of the same run into a directory that already holds
    a [split_00000.jsonl]. *)
Example five_items_files :
  ∃ st,
    encode_captioned_dataset 1 stub_encode (dataloader 1 1 five_items) ∅ 2
    = Ok st
    ∧ (λ p, map rkey <$> fs st !! p)
        <$> ["split_00000.jsonl"; "split_00001.jsonl"; "split_00002.jsonl"]
      = [Some [of_string "k0"; of_string "k1"];
         Some [of_string "k2"; of_string "k3"];
         Some [of_string "k4"]]
    ∧ opened_log st
      = ["split_00000.jsonl"; "split_00001.jsonl"; "split_00002.jsonl"].
Proof. eexists. split; [by vm_compute|]. by vm_compute. Qed.

Example stale_file_is_emptied :
  ∃ st,
    encode_captioned_dataset 1 stub_encode (dataloader 1 1 five_items)
      {[ "split_00000.jsonl" := [stale_record] ]} 2 = Ok st
    ∧ map rkey <$> fs st !! "split_00000.jsonl"
      = Some [of_string "k0"; of_string "k1"].
Proof. eexists. split; [by vm_compute|]. by vm_compute. Qed.

(** ** More about the caption builders *)

Lemma strip_padding (a t b : pystr) :
  blank a → blank b → strip (a ++ t ++ b) = strip t.
Proof.
  intros Ha Hb. symmetry. apply trimmed_unique.
  destruct (strip_trimmed t) as (a' & b' & Et & Ha' & Hb' & Hh & Hl).
  exists (a ++ a'), (b' ++ b). split_and!; try done.
  - rewrite Et at 1. by rewrite <- !app_assoc.
  - by apply Forall_app.
  - by apply Forall_app.
Qed.

(** X1.  Blanks around the title and around the description do not change
    the caption. *)
Theorem create_caption_padding (a b c e title description : pystr) :
  blank a → blank b → blank c → blank e →
  create_caption (a ++ title ++ b) (c ++ description ++ e)
  = create_caption title description.
Proof.
  intros Ha Hb Hc He. unfold create_caption.
  by rewrite !strip_padding.
Qed.

Lemma create_caption_padding_witness :
  create_caption (of_string "  " ++ of_string "a cat" ++ of_string " ")
                 ([] ++ of_string "on a mat." ++ [10%N; 9%N])
  = create_caption (of_string "a cat") (of_string "on a mat.").
Proof.
  apply create_caption_padding; unfold blank; by repeat constructor.
Defined.

Lemma strip_ends (s : pystr) :
  (∀ c, head (strip s) = Some c → isspace c = false)
  ∧ (∀ c, last (strip s) = Some c → isspace c = false).
Proof. by destruct (strip_trimmed s) as (_ & _ & _ & _ & _ & Hh & Hl). Qed.

(** X2.  The caption is never empty.  It starts with a blank exactly when
    the title is blank (empty once trimmed), and it ends with a blank
    exactly when the description is. *)
Theorem create_caption_ends (title description : pystr) :
  create_caption title description ≠ []
  ∧ ((∃ c, head (create_caption title description) = Some c
           ∧ isspace c = true) ↔ strip title = [])
  ∧ ((∃ c, last (create_caption title description) = Some c
           ∧ isspace c = true) ↔ strip description = []).
Proof.
  unfold create_caption.
  destruct (strip_ends title) as [Hth Htl].
  destruct (strip_ends description) as [Hdh Hdl].
  set (t := strip title) in *. set (d := strip description) in *.
  split_and!.
  - by destruct (_ && _), t.
  - destruct t as [|c t]; simpl.
    + split; [done|]. intros _. by exists 32%N.
    + assert (Hc : isspace c = false) by by apply Hth.
      split; [|done]. intros (c' & Hc' & Hsp).
      destruct (negb _); simpl in Hc'; injection Hc' as <-; congruence.
  - destruct d as [|c d].
    + split; [done|]. intros _. exists 32%N. split; [|done].
      change (of_string " " ++ []) with [32%N].
      destruct (_ && _); rewrite ?app_nil_r; apply last_snoc.
    + split; [|done]. intros (c' & Hc' & Hsp). exfalso.
      change (of_string " " ++ c :: d) with (32%N :: c :: d) in Hc'.
      rewrite last_app_cons, last_cons_cons in Hc'.
      rewrite (Hdl c' Hc') in Hsp. done.
Qed.

(** X3.  On the decoded [json] entry of a sample the caption builder
    returns exactly when [title_clean] and [description_clean] both hold
    strings, and then it returns what the two-argument form returns on
    them.  A missing [title_clean] raises [KeyError] and a title that is
    another JSON value than a string raises [AttributeError], whatever the
    description is; the description is looked at only after the title
    passed. *)
Theorem create_caption_item_spec (item : gmap string pyval) :
  (∀ r, create_caption_item item = Returns r ↔
        ∃ title description,
          item !! "title_clean" = Some (PyStr title)
          ∧ item !! "description_clean" = Some (PyStr description)
          ∧ r = create_caption title description)
  ∧ (item !! "title_clean" = None →
     create_caption_item item = Throws (KeyError "title_clean"))
  ∧ (∀ v, item !! "title_clean" = Some v → (∀ s, v ≠ PyStr s) →
     create_caption_item item = Throws AttributeError)
  ∧ (∀ title, item !! "title_clean" = Some (PyStr title) →
       (item !! "description_clean" = None →
        create_caption_item item = Throws (KeyError "description_clean"))
       ∧ (∀ v, item !! "description_clean" = Some v →
          (∀ s, v ≠ PyStr s) →
          create_caption_item item = Throws AttributeError)).
Proof.
  unfold create_caption_item, getitem. split_and!.
  - intros r. split.
    + destruct (item !! "title_clean") as [[t| | | | | |]|];
        simpl; try discriminate.
      destruct (item !! "description_clean") as [[d| | | | | |]|];
        simpl; try discriminate.
      intros [= <-]. by exists t, d.
    + intros (t & d & Ht & Hd & ->). rewrite Ht. simpl. by rewrite Hd.
  - by intros ->.
  - intros v -> Hv. destruct v; simpl; try done. by destruct (Hv s).
  - intros title ->. simpl. split; [by intros ->|].
    intros v -> Hv. destruct v; simpl; try done. by destruct (Hv s).
Qed.

Example create_caption_item_examples :
  create_caption_item
    {[ "title_clean" := PyStr (of_string " A dog ");
       "description_clean" := PyStr (of_string "runs ") ]}
  = Returns (of_string "A dog. runs")
  ∧ create_caption_item {[ "description_clean" := PyStr (of_string "x") ]}
    = Throws (KeyError "title_clean")
  ∧ create_caption_item
      {[ "title_clean" := PyStr []; "description_clean" := PyNone ]}
    = Throws AttributeError
  ∧ create_caption_item
      {[ "title_clean" := PyList [PyStr (of_string "A dog")];
         "description_clean" := PyStr (of_string "runs") ]}
    = Throws AttributeError.
Proof. by vm_compute. Qed.

(** ** The loop for any rotation period and any encoder *)

Section AnyPeriod.
Context {Image : Type}.
Variable device_count : nat.
Variable encode : sharded Image → list (list Z).

Lemma shard_images_raises (x : squeezed Image) (e : exn) :
  shard_images device_count x = Raise e → e = ValueError.
Proof.
  unfold shard_images.
  destruct x; destruct (device_count =? 0)%nat; try (by intros [= <-]);
    match goal with |- context [if ?c then _ else _] => destruct c end;
    try done; by intros [= <-].
Qed.

Lemma batch_rows_disobeys (b : list (PreparedItem Image)) :
  ¬ obeys device_count encode b →
  batch_rows device_count encode b = Raise ValueError.
Proof.
  unfold obeys, batch_rows, from_dict. intros Hb.
  destruct (shard_images device_count (squeeze_images (map image b)))
    as [images|e] eqn:Hs; simpl.
  - rewrite !length_map, Nat.eqb_refl. simpl.
    destruct (Nat.eqb_spec (length b) (length (encode images))); [|done].
    destruct Hb. by exists images.
  - by rewrite (shard_images_raises _ _ Hs).
Qed.

Lemma rows_of_serialisable_inv (keys captions : list pystr)
    (encoding : list string) :
  length keys = length captions → length captions = length encoding →
  serialisable (rows_of keys captions encoding) = true →
  Forall (λ k, encodable k = true) keys
  ∧ Forall (λ c, encodable c = true) captions.
Proof.
  revert captions encoding.
  induction keys as [|k keys IH]; intros [|c captions] [|e encoding];
    simpl; try done.
  intros Hk Hc Hs. apply andb_true_iff in Hs as [Hkc Hs].
  apply andb_true_iff in Hkc as [Hk' Hc'].
  destruct (IH captions encoding) as [IHk IHc]; [lia|lia|done|].
  split; by constructor.
Qed.

Lemma batch_records_not_serialisable (b : list (PreparedItem Image)) :
  obeys device_count encode b → ¬ writable b →
  serialisable (batch_records device_count encode b) = false.
Proof.
  intros Hobeys Hw. apply not_true_iff_false. intros Hs. apply Hw.
  unfold batch_records in Hs.
  apply rows_of_serialisable_inv in Hs as [Hk Hc];
    rewrite ?length_map; try done;
    [|by rewrite encoded_rows_length].
  apply Forall_fmap in Hk. apply Forall_fmap in Hc.
  unfold writable. apply Forall_forall. intros it Hit.
  rewrite Forall_forall in Hk, Hc. split; [by apply Hk|by apply Hc].
Qed.

Lemma rotate_one_handle (se n : Z) (st : state) :
  se ≠ 0 →
  (n = 0 ∧ file st = None ∧ open_files st = []) ∨ one_handle st →
  ∃ st1, rotate se n st = Ok st1 ∧ one_handle st1.
Proof.
  intros Hse Hst. unfold rotate, py_mod, py_floordiv.
  destruct (Z.eqb_spec se 0) as [|_]; [done|]. simpl.
  destruct (Z.eqb_spec (n mod se) 0) as [Hm|Hm].
  - destruct Hst as [(_ & Hf & Ho)|(h & Hf & Ho)]; rewrite Hf;
      (eexists; split; [reflexivity|]);
      unfold one_handle, file_open_w, file_close; simpl; rewrite Ho; simpl.
    + eauto.
    + rewrite String.eqb_refl. eauto.
  - destruct Hst as [(-> & _)|Hst]; [by rewrite Z.mod_0_l in Hm|].
    by exists st.
Qed.

Lemma append_one_handle (b : list (PreparedItem Image)) (st1 : state) :
  passes device_count encode b → one_handle st1 →
  ∃ st', append_batch device_count encode b st1 = Ok st' ∧ one_handle st'.
Proof.
  intros [Hb Hw] (h & Hf & Ho). unfold append_batch.
  rewrite batch_rows_ok by done. simpl. unfold to_json.
  rewrite batch_records_serialisable by done.
  rewrite Hf, Ho.
  rewrite bool_decide_eq_true_2 by (apply list_elem_of_In; simpl; auto).
  eexists. split; [reflexivity|]. exists h. by split.
Qed.

Lemma loop_one_handle (se : Z) (batches : list (list (PreparedItem Image))) :
  ∀ (n : Z) (st : state),
    se ≠ 0 →
    Forall (passes device_count encode) batches →
    (n = 0 ∧ file st = None ∧ open_files st = []) ∨ one_handle st →
    ∃ st', loop device_count encode se n batches st = Ok st'
           ∧ (batches = [] → st' = st)
           ∧ (batches ≠ [] → one_handle st').
Proof.
  induction batches as [|b batches IH]; intros n st Hse Hall Hst; simpl.
  - by exists st.
  - inversion Hall as [|? ? Hb Hall']; subst.
    destruct (rotate_one_handle se n st Hse Hst) as (st1 & Hrot & H1).
    destruct (append_one_handle b st1 Hb H1) as (st2 & Happ & H2).
    unfold step. rewrite Hrot. simpl. rewrite Happ. simpl.
    destruct (IH (n + 1) st2 Hse Hall' (or_intror H2))
      as (st' & Hloop & Hnil & Hne).
    exists st'. split; [done|]. split; [done|]. intros _.
    destruct batches as [|b' batches']; [|by apply Hne].
    by rewrite (Hnil eq_refl).
Qed.

(** X7.  As long as every batch passes [shard], comes back from the
    encoder with one row per image and has keys and captions without lone
    surrogates, the run fails in one case only: [save_every = 0] with at
    least one batch, on the modulo.  For every other [save_every], negative
    ones included, it ends normally, and after a run over at least one batch
    the writer holds exactly one open file.  Without batches nothing is
    opened or written. *)
Theorem run_fails_only_on_zero_period (se : Z)
    (batches : list (list (PreparedItem Image)))
    (fs0 : gmap string (list record)) :
  Forall (passes device_count encode) batches →
  (se = 0 → batches ≠ [] →
   encode_captioned_dataset device_count encode batches fs0 se
   = Raise ZeroDivisionError)
  ∧ (se ≠ 0 → batches ≠ [] →
     ∃ st, encode_captioned_dataset device_count encode batches fs0 se = Ok st
           ∧ one_handle st)
  ∧ (batches = [] →
     encode_captioned_dataset device_count encode batches fs0 se
     = Ok (initial fs0)).
Proof.
  intros Hall. split_and!.
  - intros -> Hne. by destruct batches.
  - intros Hse Hne. unfold encode_captioned_dataset.
    destruct (loop_one_handle se batches 0 (initial fs0) Hse Hall)
      as (st & Hloop & _ & Hone); [by left|].
    exists st. split; [done|]. by apply Hone.
  - by intros ->.
Qed.

(** X8.  A batch that [shard] refuses, or for which the encoder returns
    another number of rows than the batch has images, stops the run with
    [ValueError], raised by [shard] or when the three columns are put into
    one table, after the rotation for that batch and before anything of the
    batch is written: the batch is not skipped.  (The batches before it pass
    and [save_every] is not 0.) *)
Theorem row_count_mismatch_is_fatal (se : Z)
    (batches : list (list (PreparedItem Image)))
    (fs0 : gmap string (list record)) (n : nat)
    (b : list (PreparedItem Image)) :
  se ≠ 0 →
  batches !! n = Some b →
  Forall (passes device_count encode) (take n batches) →
  ¬ obeys device_count encode b →
  encode_captioned_dataset device_count encode batches fs0 se
  = Raise ValueError
  ∧ ∃ st_n st1,
      loop device_count encode se 0 (take n batches) (initial fs0) = Ok st_n
      ∧ rotate se (Z.of_nat n) st_n = Ok st1
      ∧ append_batch device_count encode b st1 = Raise ValueError.
Proof.
  intros Hse Hb Hpre Hbad.
  assert (Hn : length (take n batches) = n).
  { rewrite length_take. apply lookup_lt_Some in Hb. lia. }
  assert (Happ : ∀ st1,
            append_batch device_count encode b st1 = Raise ValueError).
  { intros st1. unfold append_batch. by rewrite batch_rows_disobeys. }
  destruct (loop_one_handle se (take n batches) 0 (initial fs0) Hse Hpre)
    as (st_n & Hloop & Hnil & Hone); [by left|].
  assert (Hst : (Z.of_nat n = 0 ∧ file st_n = None ∧ open_files st_n = [])
                ∨ one_handle st_n).
  { destruct (take n batches) as [|b0 pre] eqn:E.
    - left. rewrite (Hnil eq_refl). simpl in Hn. split; [lia|done].
    - right. by apply Hone. }
  destruct (rotate_one_handle se _ st_n Hse Hst) as (st1 & Hrot & _).
  split; [|by exists st_n, st1].
  unfold encode_captioned_dataset.
  rewrite <- (take_drop_middle batches n b Hb).
  rewrite loop_app, Hloop. simpl. rewrite Hn, Z.add_0_l.
  unfold step. rewrite Hrot. simpl. by rewrite Happ.
Qed.
(** X14.  A key or a caption with a lone surrogate stops the run with
    [UnicodeEncodeError]: the batch passes [shard] and the encoder, its
    table is built, and the serialisation refuses it before anything of the
    batch is written.  (The batches before it pass and [save_every] is not
    0.) *)
Theorem lone_surrogate_is_fatal (se : Z)
    (batches : list (list (PreparedItem Image)))
    (fs0 : gmap string (list record)) (n : nat)
    (b : list (PreparedItem Image)) :
  se ≠ 0 →
  batches !! n = Some b →
  Forall (passes device_count encode) (take n batches) →
  obeys device_count encode b →
  ¬ writable b →
  encode_captioned_dataset device_count encode batches fs0 se
  = Raise UnicodeEncodeError
  ∧ ∃ st_n st1,
      loop device_count encode se 0 (take n batches) (initial fs0) = Ok st_n
      ∧ rotate se (Z.of_nat n) st_n = Ok st1
      ∧ batch_rows device_count encode b
        = Ok (batch_records device_count encode b)
      ∧ append_batch device_count encode b st1 = Raise UnicodeEncodeError.
Proof.
  intros Hse Hb Hpre Hobeys Hbad.
  assert (Hn : length (take n batches) = n).
  { rewrite length_take. apply lookup_lt_Some in Hb. lia. }
  assert (Happ : ∀ st1,
            append_batch device_count encode b st1
            = Raise UnicodeEncodeError).
  { intros st1. unfold append_batch. rewrite batch_rows_ok by done.
    simpl. unfold to_json.
    by rewrite batch_records_not_serialisable. }
  destruct (loop_one_handle se (take n batches) 0 (initial fs0) Hse Hpre)
    as (st_n & Hloop & Hnil & Hone); [by left|].
  assert (Hst : (Z.of_nat n = 0 ∧ file st_n = None ∧ open_files st_n = [])
                ∨ one_handle st_n).
  { destruct (take n batches) as [|b0 pre] eqn:E.
    - left. rewrite (Hnil eq_refl). simpl in Hn. split; [lia|done].
    - right. by apply Hone. }
  destruct (rotate_one_handle se _ st_n Hse Hst) as (st1 & Hrot & _).
  split.
  - unfold encode_captioned_dataset.
    rewrite <- (take_drop_middle batches n b Hb).
    rewrite loop_app, Hloop. simpl. rewrite Hn, Z.add_0_l.
    unfold step. rewrite Hrot. simpl. by rewrite Happ.
  - exists st_n, st1. split_and!; try done. by apply batch_rows_ok.
Qed.
End AnyPeriod.

Lemma five_items_in_pairs_pass :
  Forall (passes 2 stub_encode) (dataloader 1 2 (take 4 five_items)).
Proof. passes_by_evaluation. Defined.

Lemma run_fails_only_on_zero_period_witness :
  Forall (passes 2 stub_encode) (dataloader 1 2 (take 4 five_items))
  ∧ ∃ st,
      encode_captioned_dataset 2 stub_encode
        (dataloader 1 2 (take 4 five_items)) ∅ (-2) = Ok st
      ∧ one_handle st.
Proof.
  split; [exact five_items_in_pairs_pass|].
  destruct (run_fails_only_on_zero_period 2 stub_encode (-2)
              (dataloader 1 2 (take 4 five_items)) ∅
              five_items_in_pairs_pass) as (_ & Hok & _).
  apply Hok; done.
Defined.

Lemma row_count_mismatch_is_fatal_witness :
  encode_captioned_dataset 2 stub_encode (dataloader 1 2 five_items) ∅ 2
  = Raise ValueError.
Proof.
  apply (row_count_mismatch_is_fatal 2 stub_encode 2
           (dataloader 1 2 five_items) ∅ 2 [synthetic_item 4]).
  - done.
  - reflexivity.
  - passes_by_evaluation.
  - intros (images & Hs & Hlen). vm_compute in Hs. injection Hs as <-.
    vm_compute in Hlen. discriminate Hlen.
Defined.

Lemma lone_surrogate_is_fatal_witness :
  encode_captioned_dataset 1 stub_encode
    [[synthetic_item 0]; [surrogate_item]] ∅ 2
  = Raise UnicodeEncodeError.
Proof.
  apply (lone_surrogate_is_fatal 1 stub_encode 2
           [[synthetic_item 0]; [surrogate_item]] ∅ 1 [surrogate_item]).
  - done.
  - reflexivity.
  - passes_by_evaluation.
  - eexists. split; reflexivity.
  - intros Hw. apply Forall_cons in Hw as [[_ Hc] _].
    vm_compute in Hc. discriminate Hc.
Defined.

Example negative_period_run :
  ∃ st,
    encode_captioned_dataset 1 stub_encode (dataloader 1 1 five_items) ∅ (-2)
    = Ok st
    ∧ opened_log st
      = ["split_00000.jsonl"; "split_-0001.jsonl"; "split_-0002.jsonl"].
Proof. eexists. split; [by vm_compute|]. by vm_compute. Qed.

(** ** From the dataset to the split files *)

Lemma ceil_div_unique (n d q : nat) :
  (1 ≤ d → (∀ k, k < q ↔ k * d < n) → q = (n + d - 1) / d)%nat.
Proof.
  intros Hd Hq.
  pose proof (div_bounds (n + d - 1) d Hd) as Hb.
  set (c := ((n + d - 1) / d)%nat) in *.
  destruct (Nat.lt_trichotomy q c) as [Hlt|[->|Hgt]]; [|done|].
  - assert (¬ (q * d < n)%nat) by (rewrite <- Hq; lia). nia.
  - assert (c * d < n)%nat by (by apply Hq). nia.
Qed.

Lemma batches_of_length {A : Type} (bs : nat) (B : list (list A)) :
  (1 ≤ bs)%nat → batches_of bs B →
  length B = ((length (concat B) + bs - 1) / bs)%nat.
Proof.
  intros Hbs HB. apply ceil_div_unique; [done|].
  by apply batches_of_index.
Qed.

Lemma prefix_flat_map {A B : Type} (f : A → list B) (l1 l2 : list A) :
  l1 `prefix_of` l2 → flat_map f l1 `prefix_of` flat_map f l2.
Proof.
  intros [k ->]. rewrite flat_map_app. by apply prefix_app_r.
Qed.

Lemma prefix_take_app {A : Type} (m : nat) (X Y : list A) :
  take m X `prefix_of` take m (X ++ Y).
Proof.
  destruct (decide (m ≤ length X)%nat).
  - by rewrite take_app_le.
  - rewrite take_app_ge, take_ge by lia. by eexists.
Qed.

Section Pipeline.
Context {RawImage Image : Type}.
Variable preprocess_image : RawImage → Image.
Variable device_count : nat.
Variable encode : sharded Image → list (list Z).

Lemma rows_of_captions (keys captions : list pystr) (encoding : list string) :
  length keys = length captions → length captions = length encoding →
  map rcaption (rows_of keys captions encoding) = captions.
Proof.
  revert captions encoding.
  induction keys as [|k keys IH]; intros [|c captions] [|e encoding];
    simpl; try done.
  intros. f_equal. apply IH; lia.
Qed.

Lemma flat_map_captions (X : list (list (PreparedItem Image))) :
  Forall (obeys device_count encode) X →
  map rcaption (flat_map (batch_records device_count encode) X)
  = map caption (concat X).
Proof.
  induction 1 as [|b X Hb _ IH]; simpl; [done|].
  rewrite !map_app, IH. f_equal. unfold batch_records.
  rewrite rows_of_captions; rewrite ?length_map; try done.
  by rewrite encoded_rows_length.
Qed.

(** X4.  From the rows of the dataset to the lines of the split files,
    for a run in which every batch passes [shard], comes back from the
    encoder with one token row per image and has keys and captions without
    lone surrogates: after [prepare_item] on every row, batching and the
    encoding loop, the records of the splits, read in the order of the split
    indices, carry the keys of the dataset rows in the order of the dataset,
    one record per row, and the caption of each record is [create_caption]
    of the row's title and description. *)
Theorem dataset_to_records (dataset : list (DatasetItem RawImage))
    (batch_size se : nat) (fs0 : gmap string (list record)) :
  (1 ≤ batch_size * device_count)%nat →
  (1 ≤ se)%nat →
  let batches :=
    dataloader batch_size device_count
      (map (prepare_item preprocess_image) dataset) in
  Forall (passes device_count encode) batches →
  ∃ st,
    encode_captioned_dataset device_count encode batches fs0 (Z.of_nat se)
    = Ok st
    ∧ let written :=
        flat_map (λ k, default [] (fs st !! split_name (Z.of_nat k)))
                 (seq 0 (split_count se (length batches))) in
      map rkey written = map item_key dataset
      ∧ map rcaption written
        = map (λ item, create_caption (title_clean item)
                                      (description_clean item)) dataset
      ∧ length written = length dataset.
Proof.
  intros Hbs Hse batches Hall.
  pose proof (passes_obeys device_count encode _ Hall) as Hobeys.
  destruct (run_closed_form device_count encode fs0 se batches Hse Hall)
    as (st & Hrun & Hfs & _).
  exists st. split; [done|].
  assert (Hw : flat_map (λ k, default [] (fs st !! split_name (Z.of_nat k)))
                 (seq 0 (split_count se (length batches)))
               = flat_map (batch_records device_count encode) batches).
  { rewrite <- (split_records_all device_count encode se batches Hse).
    apply flat_map_agree. intros k Hk. apply in_seq in Hk.
    rewrite Hfs; [done|]. apply split_count_lt; [done|lia]. }
  cbv zeta. rewrite Hw.
  destruct (batched_spec (batch_size * device_count)
              (map (prepare_item preprocess_image) dataset) Hbs) as [_ Hc].
  assert (Hkeys : map rkey (flat_map (batch_records device_count encode)
                                      batches)
                  = map item_key dataset).
  { rewrite (flat_map_keys device_count encode) by done.
    unfold batches, dataloader. rewrite Hc, map_map. done. }
  split_and!.
  - done.
  - rewrite flat_map_captions by done. unfold batches, dataloader.
    rewrite Hc, map_map. done.
  - rewrite <- (length_map rkey), Hkeys. by rewrite length_map.
Qed.

(** X5.  The number of batches and of files.  [n] items give
    [ceil (n / bs)] batches, [bs = batch_size * device_count], and the run,
    when every batch passes the encoding step and the serialisation,
    opens [ceil (n / (save_every * bs))] split files; run on an empty
    directory, these are all the files there are afterwards. *)
Theorem batch_and_file_counts (items : list (PreparedItem Image))
    (batch_size se : nat) :
  (1 ≤ batch_size * device_count)%nat →
  (1 ≤ se)%nat →
  Forall (passes device_count encode)
         (dataloader batch_size device_count items) →
  let bs := (batch_size * device_count)%nat in
  length (dataloader batch_size device_count items)
  = ((length items + bs - 1) / bs)%nat
  ∧ ∃ st,
      encode_captioned_dataset device_count encode
        (dataloader batch_size device_count items) ∅ (Z.of_nat se) = Ok st
      ∧ length (opened_log st)
        = ((length items + se * bs - 1) / (se * bs))%nat
      ∧ size (fs st) = length (opened_log st).
Proof.
  intros Hbs Hse Hall bs.
  destruct (batched_spec bs items Hbs) as [Hu Hc].
  assert (Hlen : length (dataloader batch_size device_count items)
                 = ((length items + bs - 1) / bs)%nat).
  { unfold dataloader. fold bs.
    rewrite (batches_of_length bs _ Hbs Hu), Hc. done. }
  split; [done|].
  destruct (run_closed_form device_count encode ∅ se
              (dataloader batch_size device_count items) Hse Hall)
    as (st & Hrun & Hfs & Hframe & Hlog & _).
  exists st. split; [done|].
  assert (Hcount : split_count se
                     (length (dataloader batch_size device_count items))
                   = ((length items + se * bs - 1) / (se * bs))%nat).
  { apply ceil_div_unique; [nia|]. intros k.
    rewrite (split_count_lt se _ k Hse).
    unfold dataloader. fold bs.
    rewrite (batches_of_index bs _ Hbs Hu (k * se)), Hc. nia. }
  split.
  - by rewrite Hlog, length_map, length_seq.
  - assert (Hdom : dom (fs st) = list_to_set (opened_log st)).
    { apply set_eq. intros p.
      rewrite elem_of_dom, elem_of_list_to_set, Hlog.
      split.
      - intros Hsome.
        destruct (decide (p ∈ map (λ k, split_name (Z.of_nat k))
                     (seq 0 (split_count se
                        (length (dataloader batch_size device_count items))))))
          as [|Hnot]; [done|exfalso].
        rewrite Hframe in Hsome.
        + rewrite lookup_empty in Hsome. by destruct Hsome.
        + intros k Hk ->. apply Hnot. apply list_elem_of_In, in_map_iff.
          exists k. split; [done|]. apply in_seq.
          apply split_count_lt in Hk; [lia|done].
      - intros Hin. apply list_elem_of_In, in_map_iff in Hin
          as (k & <- & Hk). apply in_seq in Hk.
        rewrite Hfs; [done|]. apply split_count_lt; [done|lia]. }
    rewrite <- size_dom, Hdom. apply size_list_to_set.
    rewrite Hlog. apply split_names_distinct.
Qed.

(** X6.  A split that the loop has left is final.  In a run in which
    every batch passes the encoding step and the serialisation, after [n]
    batches the
    file of every split made so far holds a prefix of what it holds at the
    end of the run, and a split whose [save_every] batches are all among the
    first [n] already holds everything; the run from batch [n] on only
    appends to the current split and makes new ones. *)
Theorem completed_splits_are_final
    (batches : list (list (PreparedItem Image)))
    (se n k : nat) (fs0 : gmap string (list record)) :
  (1 ≤ se)%nat →
  Forall (passes device_count encode) batches →
  (n ≤ length batches)%nat →
  (k * se < n)%nat →
  ∃ st_n st recs_n recs,
    loop device_count encode (Z.of_nat se) 0 (take n batches) (initial fs0)
    = Ok st_n
    ∧ encode_captioned_dataset device_count encode batches fs0 (Z.of_nat se)
      = loop device_count encode (Z.of_nat se) (Z.of_nat n)
             (drop n batches) st_n
    ∧ encode_captioned_dataset device_count encode batches fs0 (Z.of_nat se)
      = Ok st
    ∧ fs st_n !! split_name (Z.of_nat k) = Some recs_n
    ∧ fs st !! split_name (Z.of_nat k) = Some recs
    ∧ recs_n `prefix_of` recs
    ∧ ((k * se + se ≤ n)%nat → recs_n = recs).
Proof.
  intros Hse Hall Hn Hk.
  assert (Hlen : length (take n batches) = n) by (rewrite length_take; lia).
  destruct (run_closed_form device_count encode fs0 se (take n batches) Hse
              (Forall_take _ n _ Hall))
    as (st_n & Hrun_n & Hfs_n & _).
  destruct (run_closed_form device_count encode fs0 se batches Hse Hall)
    as (st & Hrun & Hfs & _).
  exists st_n, st, (split_records device_count encode se k (take n batches)),
         (split_records device_count encode se k batches).
  unfold encode_captioned_dataset in *.
  split_and!.
  - done.
  - rewrite <- (take_drop n batches) at 1.
    rewrite loop_app, Hrun_n. simpl. by rewrite Hlen.
  - done.
  - apply Hfs_n. lia.
  - apply Hfs. lia.
  - unfold split_records, split_batches. apply prefix_flat_map.
    rewrite <- (take_drop n batches) at 2.
    rewrite drop_app_le by lia.
    apply prefix_take_app.
  - intros Hfull. unfold split_records, split_batches. f_equal.
    rewrite <- (take_drop n batches) at 2.
    rewrite drop_app_le by lia.
    rewrite take_app_le; [done|]. rewrite length_drop. lia.
Qed.
End Pipeline.

(** ** More about the rendering of a token row *)

Lemma py_str_length64 (x : Z) :
  is_int64 x → (String.length (py_str x) ≤ 20)%nat.
Proof.
  intros Hx. unfold is_int64 in Hx.
  assert (Hd : (String.length (digits 10 (Z.abs_N x)) ≤ 19)%nat).
  { unfold digits.
    etrans; [apply (digits_go_length 10 _ 19)|simpl; lia]; [done|lia|].
    change (10 ^ N.of_nat 19)%N with 10000000000000000000%N. lia. }
  unfold py_str. destruct (x <? 0).
  - rewrite string_app_cons, string_app_nil_l. simpl. lia.
  - lia.
Qed.

Lemma fold_put_word_fits_width (W : Z) (p : string) (w : nat)
    (ws : list string) :
  ∀ line : string,
    Forall (λ v, (String.length v ≤ w)%nat) ws →
    Z.of_nat (String.length line) + Z.of_nat (S w) * Z.of_nat (length ws) ≤ W →
    fold_left (put_word W p) ws ("", line)
    = ("", line +:+ fold_right (λ v r, v +:+ "," +:+ r) "" ws).
Proof.
  induction ws as [|v ws IH]; intros line Hws Hfit; simpl.
  - by rewrite string_app_nil_r.
  - inversion Hws as [|? ? Hv Hws']; subst.
    simpl length in Hfit.
    unfold put_word at 2, extend_line.
    destruct (Z.ltb_spec W
      (Z.of_nat (String.length line) + Z.of_nat (String.length v))); [nia|].
    simpl andb. cbv iota beta.
    rewrite IH; [|done|].
    + unfold separator. by rewrite !string_app_assoc.
    + unfold separator. rewrite !string_length_app. simpl String.length. nia.
Qed.

Lemma fold_right_commas_length (w : nat) (ws : list string) :
  Forall (λ v, (String.length v ≤ w)%nat) ws →
  (String.length (fold_right (λ v r, v +:+ "," +:+ r) "" ws)
   ≤ S w * length ws)%nat.
Proof.
  induction 1 as [|v ws Hv _ IH]; simpl; [lia|].
  rewrite !string_length_app. simpl String.length. nia.
Qed.

(** The element loops and the last element, for words that fit. *)
Lemma format_words_fits (W : Z) (w : nat) (ws : list string) (x : string) :
  Forall (λ v, (String.length v ≤ w)%nat) ws →
  (String.length x ≤ w)%nat →
  1 + Z.of_nat (S w) * Z.of_nat (S (length ws)) ≤ W →
  extend_line W " " (fold_left (put_word W " ") ws ("", " ")) x
  = ("", " " +:+ join_commas (ws ++ [x])).
Proof.
  intros Hws Hx Hfit.
  rewrite (fold_put_word_fits_width W " " w) by (simpl String.length; nia || done).
  pose proof (fold_right_commas_length w ws Hws) as Hl.
  unfold extend_line.
  destruct (Z.ltb_spec W
     (Z.of_nat (String.length
        (" " +:+ fold_right (λ v r, v +:+ "," +:+ r) "" ws))
      + Z.of_nat (String.length x))) as [Hwrap|_].
  { rewrite string_length_app in Hwrap. simpl String.length in Hwrap. nia. }
  simpl andb. cbv iota.
  by rewrite join_commas_snoc, !string_app_assoc.
Qed.

(** X9.  Up to numpy's summarising threshold of 1000 elements, a row of
    integers of any numpy integer type (64 bits at most) is written on one
    line and in full: the text is the bracketed list, reading it back gives
    the row, and two different rows never get the same text.  The line
    width of 50000 is never reached. *)
Theorem array2string_up_to_threshold (a b : list Z) :
  (length a ≤ threshold)%nat → Forall is_int64 a →
  array2string a = bracketed a
  ∧ parse_encoding (array2string a) = Some a
  ∧ ((length b ≤ threshold)%nat → Forall is_int64 b →
     array2string a = array2string b → a = b).
Proof.
  assert (Hbr : ∀ l : list Z, (length l ≤ threshold)%nat → Forall is_int64 l →
                  array2string l = bracketed l).
  { clear a b. intros a Hlen Hint. unfold array2string, bracketed.
    destruct (Nat.eqb_spec (length a) 0) as [Hz|Hnz].
    { destruct a; [reflexivity|discriminate]. }
    destruct (Nat.ltb_spec threshold (length a)); [lia|].
    change (negb ("" =? "")%string) with false. cbv beta iota zeta.
    simpl andb. cbv iota.
    change (fold_left _ (map py_str []) ("", " ")) with ("", " ").
    destruct (exists_last (l := a)) as (front & x & ->); [by destruct a|].
    rewrite removelast_last, last_last.
    rewrite length_app in Hlen. simpl in Hlen. unfold threshold in Hlen.
    apply Forall_app in Hint as [Hfront Hx].
    inversion Hx as [|? ? Hx' _]; subst.
    set (W := max_line_width - _).
    assert (HW : W = 49999) by reflexivity.
    rewrite (format_words_fits W 20).
    - rewrite map_app. simpl map.
      rewrite string_app_nil_l, (string_drop_app " "). done.
    - apply Forall_map. eapply Forall_impl; [exact Hfront|].
      intros y Hy. by apply py_str_length64.
    - by apply py_str_length64.
    - rewrite length_map. lia. }
  intros Hlen Hint.
  assert (Hpa : parse_encoding (array2string a) = Some a).
  { rewrite Hbr by done. apply parse_encoding_bracketed. }
  split_and!; [by apply Hbr|done|].
  intros Hlenb Hintb Heq.
  assert (Hpb : parse_encoding (array2string b) = Some b).
  { rewrite Hbr by done. apply parse_encoding_bracketed. }
  rewrite Heq in Hpa. congruence.
Qed.

Lemma parse_items_word_comma (x : Z) (rest : string) (acc : list Z) :
  parse_items (py_str x +:+ "," +:+ rest) acc false None
  = parse_items rest (acc ++ [x]) false None.
Proof.
  destruct (parse_items_py_str x ("," +:+ rest) acc) as (neg & v & Hx & ->).
  rewrite string_app_cons, string_app_nil_l.
  change (parse_items (String "," ?s) acc neg (Some v))
    with (parse_items s (acc ++ [signed neg v]) false None).
  by rewrite Hx.
Qed.

(** X10.  A row of more than 1000 elements is not written in full: the text
    holds its first three and its last three elements with [...] between
    them, and the decoder does not accept it. *)
Theorem array2string_beyond_threshold (a : list Z) :
  (threshold < length a)%nat → Forall is_int64 a →
  array2string a
  = "[" +:+ join_commas (map py_str (take edgeitems a)
                         ++ "..." :: map py_str (drop (length a - edgeitems) a))
        +:+ "]"
  ∧ parse_encoding (array2string a) = None.
Proof.
  intros Hlen Hint.
  assert (E : array2string a
              = "[" +:+ join_commas
                          (map py_str (take edgeitems a)
                           ++ "..." :: map py_str (drop (length a - edgeitems) a))
                    +:+ "]").
  { unfold array2string.
    destruct (Nat.eqb_spec (length a) 0) as [Hz|_]; [unfold threshold in *; lia|].
    destruct (Nat.ltb_spec threshold (length a)) as [_|]; [|lia].
    change (negb ("..." =? "")%string) with true.
    destruct (Nat.ltb_spec (2 * edgeitems) (length a)) as [_|Hs];
      [|unfold threshold, edgeitems in *; lia].
    cbv beta iota zeta. simpl andb. cbv iota.
    set (W := max_line_width - _).
    assert (HW : W = 49999) by reflexivity.
    assert (Htr : length (drop (length a - edgeitems) a) = 3%nat).
    { rewrite length_drop. unfold threshold, edgeitems in *. lia. }
    destruct (exists_last (l := drop (length a - edgeitems) a))
      as (front & x & Etr); [intros E; by rewrite E in Htr|].
    rewrite Etr. rewrite removelast_last, last_last.
    rewrite Etr, length_app in Htr. simpl in Htr.
    assert (Hx : is_int64 x ∧ Forall is_int64 front).
    { assert (Hd : Forall is_int64 (drop (length a - edgeitems) a))
        by by apply Forall_drop.
      rewrite Etr in Hd. apply Forall_app in Hd as [? Hd].
      by inversion Hd. }
    destruct Hx as [Hx Hfront].
    change (put_word W " " ?sl "...") with (fold_left (put_word W " ") ["..."] sl).
    rewrite <- !fold_left_app.
    rewrite (format_words_fits W 20).
    - rewrite string_app_nil_l, (string_drop_app " ").
      rewrite map_app. simpl map. do 2 f_equal.
      by rewrite <- !app_assoc.
    - rewrite !Forall_app. split_and!.
      + apply Forall_map, Forall_take. eapply Forall_impl; [exact Hint|].
        intros y Hy. by apply py_str_length64.
      + repeat constructor; simpl; lia.
      + apply Forall_map. eapply Forall_impl; [exact Hfront|].
        intros y Hy. by apply py_str_length64.
    - by apply py_str_length64.
    - rewrite !length_app, !length_map, length_take. simpl length.
      unfold edgeitems. lia. }
  split; [done|]. rewrite E.
  destruct a as [|x0 [|x1 [|x2 rest]]];
    try (simpl in Hlen; unfold threshold in Hlen; lia).
  change (take edgeitems (x0 :: x1 :: x2 :: rest)) with [x0; x1; x2].
  set (L := map py_str (drop _ _)).
  change (join_commas (map py_str [x0; x1; x2] ++ "..." :: L))
    with (py_str x0 +:+ "," +:+ py_str x1 +:+ "," +:+ py_str x2 +:+ ","
          +:+ join_commas ("..." :: L)).
  rewrite string_app_cons, string_app_nil_l.
  change (parse_encoding (String "[" ?s)) with (parse_items s [] false None).
  rewrite !string_app_assoc.
  rewrite !parse_items_word_comma.
  destruct L as [|l L]; simpl join_commas;
    rewrite ?string_app_assoc, string_app_cons; reflexivity.
Qed.

Lemma array2string_up_to_threshold_witness :
  array2string [9223372036854775807; -9223372036854775808]
  = bracketed [9223372036854775807; -9223372036854775808]
  ∧ parse_encoding (array2string [9223372036854775807; -9223372036854775808])
    = Some [9223372036854775807; -9223372036854775808].
Proof.
  destruct (array2string_up_to_threshold
              [9223372036854775807; -9223372036854775808] [])
    as (H1 & H2 & _).
  - vm_compute. lia.
  - unfold is_int64. repeat constructor; lia.
  - by split.
Defined.

Lemma array2string_beyond_threshold_witness :
  parse_encoding (array2string (map Z.of_nat (seq 0 1001))) = None.
Proof.
  destruct (array2string_beyond_threshold (map Z.of_nat (seq 0 1001)))
    as [_ H].
  - rewrite length_map, length_seq. unfold threshold. lia.
  - apply Forall_map, Forall_forall. intros k Hk.
    apply elem_of_seq in Hk. unfold is_int64. simpl. lia.
  - exact H.
Defined.

(** ** Shapes around the encoder *)

(** X11.  The shapes the loop hands to the encoder and gets back, for
    images of [h x w x c] with no axis of length one and [device_count >= 1].
    A batch of [b >= 2] images is dealt to the devices, [b / device_count]
    images each, when [device_count] divides [b], and cannot be sharded
    otherwise.  A batch of one image loses its batch axis in [squeeze]: what
    is sharded then is the image itself, its rows dealt to the devices.
    After the encoder, [device_count] blocks of [m] token rows are reshaped
    into [device_count * m] rows. *)
Theorem shard_squeeze_shapes (device_count b h w c : nat) :
  (1 ≤ device_count)%nat → (2 ≤ h)%nat → (2 ≤ w)%nat → (2 ≤ c)%nat →
  ((2 ≤ b)%nat → (b mod device_count = 0)%nat →
   shard device_count (squeeze [b; h; w; c])
   = Some [device_count; (b / device_count)%nat; h; w; c])
  ∧ ((2 ≤ b)%nat → (b mod device_count ≠ 0)%nat →
     shard device_count (squeeze [b; h; w; c]) = None)
  ∧ shard device_count (squeeze [1%nat; h; w; c])
    = (if (h mod device_count =? 0)%nat
       then Some [device_count; (h / device_count)%nat; w; c]
       else None)
  ∧ (∀ m L : nat, (1 ≤ L)%nat →
       reshape_rows [device_count; m; L] = Some [(device_count * m)%nat; L]).
Proof.
  intros Hdc Hh Hw Hc.
  assert (Hsq : ∀ b', (2 ≤ b')%nat → squeeze [b'; h; w; c] = [b'; h; w; c]).
  { intros b' Hb'. unfold squeeze. simpl.
    destruct (Nat.eqb_spec b' 1), (Nat.eqb_spec h 1), (Nat.eqb_spec w 1),
      (Nat.eqb_spec c 1); try lia. done. }
  assert (Hsq1 : squeeze [1%nat; h; w; c] = [h; w; c]).
  { unfold squeeze. simpl.
    destruct (Nat.eqb_spec h 1), (Nat.eqb_spec w 1), (Nat.eqb_spec c 1);
      try lia. done. }
  assert (Hshard : ∀ (d : nat) (rest : list nat), (0 < size_of rest)%nat →
            shard device_count (d :: rest)
            = if (d mod device_count =? 0)%nat
              then Some (device_count :: (d / device_count)%nat :: rest)
              else None).
  { intros d rest Hrest. unfold shard. simpl tail.
    change (size_of (d :: rest)) with (d * size_of rest)%nat.
    destruct (Nat.eqb_spec (device_count * size_of rest) 0) as [E|_]; [nia|].
    rewrite Nat.Div0.mul_mod_distr_r.
    rewrite Nat.Div0.div_mul_cancel_r by lia.
    destruct (Nat.eqb_spec (d mod device_count) 0) as [->|Hne]; [done|].
    destruct (Nat.eqb_spec (d mod device_count * size_of rest) 0); [nia|done]. }
  split_and!.
  - intros Hb Hdiv. rewrite Hsq by done.
    rewrite Hshard by (simpl; nia). by rewrite Hdiv.
  - intros Hb Hdiv. rewrite Hsq by done.
    rewrite Hshard by (simpl; nia).
    by destruct (Nat.eqb_spec (b mod device_count) 0).
  - rewrite Hsq1. apply Hshard. simpl. nia.
  - intros m L HL. unfold reshape_rows.
    change (last [device_count; m; L]) with (Some L). cbv iota beta.
    destruct (Nat.eqb_spec L 0); [lia|].
    change (size_of [device_count; m; L]) with (device_count * (m * (L * 1)))%nat.
    replace (device_count * (m * (L * 1)))%nat with (device_count * m * L)%nat
      by lia.
    rewrite Nat.Div0.mod_mul, Nat.div_mul by lia. done.
Qed.

Lemma shard_squeeze_shapes_witness :
  shard 8 (squeeze [128%nat; 256%nat; 256%nat; 3%nat])
  = Some [8%nat; 16%nat; 256%nat; 256%nat; 3%nat]
  ∧ shard 8 (squeeze [1%nat; 256%nat; 256%nat; 3%nat])
    = Some [8%nat; 32%nat; 256%nat; 3%nat].
Proof.
  destruct (shard_squeeze_shapes 8 128 256 256 3) as (Hfull & _ & Hone & _);
    try lia.
  split; [apply Hfull; [lia|reflexivity]|exact Hone].
Defined.

(** ** The logging handler *)

Lemma successes_cons {A B : Type} (f : A → B + string) (sample : A)
    (data : list A) :
  successes f (sample :: data)
  = match f sample with
    | inl r => r :: successes f data
    | inr _ => successes f data
    end.
Proof. unfold successes. simpl. by destruct (f sample). Qed.

Lemma failures_cons {A B : Type} (f : A → B + string) (sample : A)
    (data : list A) :
  failures f (sample :: data)
  = match f sample with
    | inl _ => failures f data
    | inr e => e :: failures f data
    end.
Proof. unfold failures. simpl. by destruct (f sample). Qed.

Lemma map_with_handler_log {A B : Type} (f : A → B + string) (data : list A) :
  ∀ files : gmap string string,
    map_with_handler f ignore_and_log data files
    = (successes f data,
       match failures f data with
       | [] => files
       | es => <["errors.txt" :=
                   default "" (files !! "errors.txt") +:+ log_lines es]> files
       end).
Proof.
  induction data as [|sample data IH]; intros files; [done|].
  rewrite successes_cons, failures_cons. simpl map_with_handler.
  destruct (f sample) as [r|e].
  - by rewrite IH.
  - unfold ignore_and_log at 1. cbv iota beta. rewrite IH. f_equal.
    destruct (failures f data) as [|e' es].
    + change (log_lines [e]) with (e +:+ newline +:+ "").
      by rewrite string_app_nil_r.
    + rewrite lookup_insert_eq. simpl default.
      rewrite insert_insert_eq. f_equal.
      change (log_lines (e :: e' :: es))
        with (e +:+ newline +:+ log_lines (e' :: es)).
      by rewrite !string_app_assoc.
Qed.

(** X12.  With [ignore_and_log] as the handler no sample stops the
    iteration: the samples that can be processed come out, in their order,
    every exception adds one line with its [repr] at the end of
    [errors.txt], in the order of the failures and after what the file held
    before, and no other file changes.  When the processing fails on every
    sample the whole dataset is consumed and nothing comes out. *)
Theorem failures_are_logged_and_skipped {A B : Type} (f : A → B + string)
    (data : list A) (files : gmap string string) :
  ∃ files',
    map_with_handler f ignore_and_log data files = (successes f data, files')
    ∧ (length (successes f data) + length (failures f data) = length data)%nat
    ∧ (failures f data ≠ [] →
       files' !! "errors.txt"
       = Some (default "" (files !! "errors.txt")
               +:+ log_lines (failures f data)))
    ∧ (failures f data = [] → files' = files)
    ∧ (∀ p : string, p ≠ "errors.txt" → files' !! p = files !! p)
    ∧ ((∀ sample, sample ∈ data → ∃ e, f sample = inr e) →
       successes f data = [] ∧ length (failures f data) = length data).
Proof.
  rewrite map_with_handler_log. eexists. split; [reflexivity|].
  assert (Hcount : (length (successes f data) + length (failures f data)
                    = length data)%nat).
  { induction data as [|sample data IH]; [done|].
    rewrite successes_cons, failures_cons.
    destruct (f sample); simpl; lia. }
  split_and!.
  - done.
  - intros Hne. destruct (failures f data); [done|].
    by rewrite lookup_insert_eq.
  - intros ->. done.
  - intros p Hp. destruct (failures f data); [done|].
    by rewrite lookup_insert_ne.
  - intros Hall.
    assert (Hs : successes f data = []).
    { clear Hcount. induction data as [|sample data IH]; [done|].
      rewrite successes_cons.
      destruct (Hall sample) as [e ->]; [by left|].
      apply IH. intros s Hs. apply Hall. by right. }
    split; [done|]. rewrite Hs in Hcount. simpl in Hcount. done.
Qed.

Example ignore_and_log_example :
  map_with_handler
    (λ n : nat, if (n mod 2 =? 0)%nat then inl n else inr "ValueError('odd')")
    ignore_and_log [0; 1; 2; 3]%nat {[ "errors.txt" := "old" +:+ newline ]}
  = ([0; 2]%nat,
     {[ "errors.txt" :=
          "old" +:+ newline +:+ "ValueError('odd')" +:+ newline
          +:+ "ValueError('odd')" +:+ newline ]}).
Proof. by vm_compute. Qed.

(** ** The order of the file names *)

Lemma ascii_compare_refl (c : ascii) : Ascii.compare c c = Eq.
Proof. unfold Ascii.compare. apply N.compare_refl. Qed.

Lemma string_compare_refl (s : string) : (s ?= s)%string = Eq.
Proof.
  induction s as [|c s IH]; [done|]. simpl. by rewrite ascii_compare_refl.
Qed.

Lemma string_compare_app_prefix (p x y : string) :
  (p +:+ x ?= p +:+ y)%string = (x ?= y)%string.
Proof.
  induction p as [|c p IH]; [done|].
  rewrite !string_app_cons. simpl. by rewrite ascii_compare_refl.
Qed.

Lemma hex_value_go_acc (d : string) :
  ∀ acc : N,
    all_chars is_lower_hex d = true →
    hex_value_go acc d
    = (acc * 16 ^ N.of_nat (String.length d) + hex_value_go 0 d)%N.
Proof.
  induction d as [|c d IH]; intros acc Hd.
  - simpl. lia.
  - simpl in Hd. apply andb_true_iff in Hd as [Hc Hd].
    unfold is_lower_hex in Hc.
    change (String.length (String c d)) with (S (String.length d)).
    rewrite Nat2N.inj_succ, N.pow_succ_r'. simpl.
    destruct (hex_digit c) as [v|]; [|done].
    rewrite (IH (16 * acc + v)%N), (IH (16 * 0 + v)%N) by done. lia.
Qed.

Lemma hex_digit_order (c1 c2 : ascii) (v1 v2 : N) :
  hex_digit c1 = Some v1 → hex_digit c2 = Some v2 →
  Ascii.compare c1 c2 = (v1 ?= v2)%N.
Proof.
  unfold hex_digit, Ascii.compare. intros H1 H2.
  destruct (N.leb_spec 48 (N_of_ascii c1)), (N.leb_spec (N_of_ascii c1) 57),
    (N.leb_spec 97 (N_of_ascii c1)), (N.leb_spec (N_of_ascii c1) 102);
    simpl in H1; try discriminate; try lia; injection H1 as <-;
    destruct (N.leb_spec 48 (N_of_ascii c2)), (N.leb_spec (N_of_ascii c2) 57),
      (N.leb_spec 97 (N_of_ascii c2)), (N.leb_spec (N_of_ascii c2) 102);
    simpl in H2; try discriminate; try lia; injection H2 as <-;
    destruct (N.compare_spec (N_of_ascii c1) (N_of_ascii c2));
    symmetry; try (apply N.compare_eq_iff; lia);
    try (apply N.compare_lt_iff; lia); apply N.compare_gt_iff; lia.
Qed.

(** Two texts that start with equally many hexadecimal digits compare like
    the values of these digits, when the values differ. *)
Lemma hex_compare_lt (d1 : string) :
  ∀ (d2 r1 r2 : string),
    String.length d1 = String.length d2 →
    all_chars is_lower_hex d1 = true →
    all_chars is_lower_hex d2 = true →
    (hex_value_go 0 d1 < hex_value_go 0 d2)%N →
    (d1 +:+ r1 ?= d2 +:+ r2)%string = Lt.
Proof.
  induction d1 as [|c1 d1 IH]; intros [|c2 d2] r1 r2 Hlen H1 H2 Hlt;
    try discriminate.
  simpl in Hlen. injection Hlen as Hlen.
  simpl in H1, H2.
  apply andb_true_iff in H1 as [Hc1 H1].
  apply andb_true_iff in H2 as [Hc2 H2].
  unfold is_lower_hex in Hc1, Hc2.
  destruct (hex_digit c1) as [v1|] eqn:E1; [|done].
  destruct (hex_digit c2) as [v2|] eqn:E2; [|done].
  simpl in Hlt. rewrite E1, E2 in Hlt.
  rewrite (hex_value_go_acc d1), (hex_value_go_acc d2) in Hlt by done.
  rewrite Hlen in Hlt.
  pose proof (hex_value_bound d1 0) as B1.
  pose proof (hex_value_bound d2 0) as B2.
  rewrite Hlen in B1.
  rewrite !string_app_cons. simpl.
  rewrite (hex_digit_order c1 c2 v1 v2 E1 E2).
  destruct (N.compare_spec v1 v2) as [->|Hv|Hv].
  - apply IH; try done. lia.
  - done.
  - exfalso. nia.
Qed.

Lemma format_05x_five (k : Z) :
  0 ≤ k < 16 ^ 5 →
  String.length (format_05x k) = 5%nat
  ∧ all_chars is_lower_hex (format_05x k) = true
  ∧ hex_value_go 0 (format_05x k) = Z.to_N k.
Proof.
  intros [Hk Hlt]. rewrite format_05x_nonneg by done. unfold zfill.
  assert (Hlen : (String.length (digits 16 (Z.to_N k)) ≤ 5)%nat).
  { unfold digits.
    etrans; [apply (digits_go_length 16 _ 5)|simpl; lia]; [done|lia|].
    change (16 ^ N.of_nat 5)%N with (Z.to_N (16 ^ 5)). lia. }
  split_and!.
  - rewrite string_length_app, zeros_length. lia.
  - rewrite all_chars_app, zeros_hex. simpl.
    unfold digits. by apply digits_go_hex.
  - rewrite hex_value_zeros. unfold digits.
    by rewrite hex_value_digits by apply enough_digits.
Qed.

Lemma split_name_lt (j k : Z) :
  0 ≤ j → j < k → k < 16 ^ 5 →
  (split_name j ?= split_name k)%string = Lt.
Proof.
  intros Hj Hjk Hk. unfold split_name.
  rewrite string_compare_app_prefix.
  destruct (format_05x_five j) as (L1 & X1 & V1); [lia|].
  destruct (format_05x_five k) as (L2 & X2 & V2); [lia|].
  apply hex_compare_lt; try done; [congruence|lia].
Qed.

(** X13.  Below [16 ^ 5] the names of the splits sort like their indices:
    comparing two file names as strings gives what comparing the two split
    indices gives, so a sorted directory listing is the order in which the
    splits were written. *)
Theorem split_names_sort_like_indices (j k : Z) :
  0 ≤ j < 16 ^ 5 → 0 ≤ k < 16 ^ 5 →
  (split_name j ?= split_name k)%string = (j ?= k).
Proof.
  intros Hj Hk. destruct (Z.compare_spec j k) as [->|Hlt|Hgt].
  - apply string_compare_refl.
  - apply split_name_lt; lia.
  - rewrite String.compare_antisym.
    rewrite split_name_lt by lia. done.
Qed.

Lemma split_names_sort_like_indices_witness :
  (split_name 9 ?= split_name 10)%string = (9 ?= 10).
Proof. apply split_names_sort_like_indices; lia. Defined.

(** From [16 ^ 5] on the names no longer sort like the indices. *)
Example split_names_order_breaks :
  (split_name 1048576 ?= split_name 1048575)%string = Lt.
Proof. by vm_compute. Qed.
(** ** The further theorems at concrete inputs *)

Lemma five_rows_pass :
  Forall (passes 1 stub_encode)
         (dataloader 1 1 (map (prepare_item id) five_rows)).
Proof. passes_by_evaluation. Defined.

Lemma five_items_by_two_pass :
  Forall (passes 1 stub_encode) (dataloader 2 1 (take 4 five_items)).
Proof. passes_by_evaluation. Defined.

Lemma dataset_to_records_witness :
  (1 ≤ 1 * 1)%nat
  ∧ (1 ≤ 2)%nat
  ∧ Forall (passes 1 stub_encode)
           (dataloader 1 1 (map (prepare_item id) five_rows))
  ∧ ∃ st,
      encode_captioned_dataset 1 stub_encode
        (dataloader 1 1 (map (prepare_item id) five_rows)) ∅ (Z.of_nat 2)
      = Ok st
      ∧ map rkey
          (flat_map (λ k, default [] (fs st !! split_name (Z.of_nat k)))
             (seq 0 (split_count 2
                       (length (dataloader 1 1
                                  (map (prepare_item id) five_rows))))))
        = map item_key five_rows.
Proof.
  assert (Hbs : (1 ≤ 1 * 1)%nat) by (simpl; lia).
  assert (Hse : (1 ≤ 2)%nat) by lia.
  split; [exact Hbs|]. split; [exact Hse|]. split; [exact five_rows_pass|].
  destruct (dataset_to_records id 1 stub_encode five_rows
              1 2 ∅ Hbs Hse five_rows_pass) as (st & Hrun & Hkeys & _).
  exists st. split; [exact Hrun|exact Hkeys].
Defined.

Lemma batch_and_file_counts_witness :
  (1 ≤ 2 * 1)%nat
  ∧ (1 ≤ 2)%nat
  ∧ Forall (passes 1 stub_encode) (dataloader 2 1 (take 4 five_items))
  ∧ length (dataloader 2 1 (take 4 five_items)) = 2%nat
  ∧ ∃ st,
      encode_captioned_dataset 1 stub_encode
        (dataloader 2 1 (take 4 five_items)) ∅ (Z.of_nat 1) = Ok st
      ∧ length (opened_log st) = 2%nat
      ∧ size (fs st) = 2%nat.
Proof.
  assert (Hbs : (1 ≤ 2 * 1)%nat) by (simpl; lia).
  assert (Hse : (1 ≤ 1)%nat) by lia.
  split; [exact Hbs|]. split; [lia|].
  split; [exact five_items_by_two_pass|].
  destruct (batch_and_file_counts 1 stub_encode (take 4 five_items)
              2 1 Hbs Hse five_items_by_two_pass)
    as (Hlen & st & Hrun & Hlog & Hsize).
  split; [exact Hlen|].
  exists st. split; [exact Hrun|]. split; [exact Hlog|].
  rewrite Hsize. exact Hlog.
Defined.

Lemma completed_splits_are_final_witness :
  (1 ≤ 2)%nat
  ∧ Forall (passes 1 stub_encode) (dataloader 1 1 five_items)
  ∧ (3 ≤ length (dataloader 1 1 five_items))%nat
  ∧ (0 * 2 < 3)%nat
  ∧ ∃ st_n st recs,
      loop 1 stub_encode (Z.of_nat 2) 0 (take 3 (dataloader 1 1 five_items))
        (initial ∅) = Ok st_n
      ∧ encode_captioned_dataset 1 stub_encode (dataloader 1 1 five_items) ∅
          (Z.of_nat 2) = Ok st
      ∧ fs st_n !! split_name (Z.of_nat 0) = Some recs
      ∧ fs st !! split_name (Z.of_nat 0) = Some recs.
Proof.
  assert (Hse : (1 ≤ 2)%nat) by lia.
  assert (Hn : (3 ≤ length (dataloader 1 1 five_items))%nat) by (simpl; lia).
  assert (Hk : (0 * 2 < 3)%nat) by lia.
  split; [exact Hse|]. split; [exact five_items_pass|]. split; [exact Hn|].
  split; [exact Hk|].
  destruct (completed_splits_are_final 1 stub_encode
              (dataloader 1 1 five_items) 2 3 0 ∅ Hse five_items_pass Hn Hk)
    as (st_n & st & recs_n & recs & Hpre & _ & Hrun & Hfn & Hf & _ & Hfull).
  exists st_n, st, recs_n. split; [exact Hpre|]. split; [exact Hrun|].
  split; [exact Hfn|]. rewrite Hfull; [exact Hf|]. lia.
Defined.

Example five_rows_prepared :
  map (prepare_item id) five_rows = five_items.
Proof. by vm_compute. Qed.

(** ** When a batch passes *)

(** X15.  What the theorems about whole runs ask of a batch holds for
    every batch of a length other than one that is a multiple of the number
    of devices, when the encoder returns one token row for each image of
    the blocks it is given and no key or caption holds a lone surrogate. *)
Theorem shardable_batches_pass {Image : Type} (device_count : nat)
    (encode : sharded Image → list (list Z))
    (b : list (PreparedItem Image)) :
  (1 ≤ device_count)%nat →
  (∀ blocks, length (encode (Blocks blocks)) = length (concat blocks)) →
  length b ≠ 1%nat →
  (length b mod device_count = 0)%nat →
  writable b →
  passes device_count encode b.
Proof.
  intros Hdc Hrows Hne Hmod Hw. split; [|done].
  destruct (shard_images_blocks device_count (map image b))
    as (blocks & Hs & _ & Hconcat); rewrite ?length_map; try done.
  exists (Blocks blocks). split; [done|].
  by rewrite Hrows, Hconcat, length_map.
Qed.

Lemma shardable_batches_pass_witness :
  passes 2 stub_encode [synthetic_item 0; synthetic_item 1].
Proof.
  apply shardable_batches_pass.
  - lia.
  - reflexivity.
  - simpl. lia.
  - reflexivity.
  - repeat (apply Forall_cons_2; [split; reflexivity|]). apply Forall_nil_2.
Defined.
